(** * laion_prepare.build_subset: a shallow embedding and its properties

    The development follows
    [src/nemo_curator_semantic_dedup/laion_prepare.py].  The function
    [build_subset] walks over the shard paths in sorted order, resolves the
    requested columns against each shard's schema, reads the resolved
    projection, truncates it against the row cap and appends it to a lazily
    opened Parquet writer.

    The external world (the shards on disk, the output file, standard
    output) is made explicit: the shards are a finite map from paths to
    tables, and every effect of the function is an [Event] of its trace.

    The second part follows the rest of the file: the comma-separated
    options read by [main], [download_shards] over an abstract platform, and
    [main] itself from the parsed arguments on. *)

From Stdlib Require Import ZArith Ascii String.
From stdpp Require Import base option list gmap strings sorting.

Local Open Scope Z_scope.

(** ** Python primitives used by the program *)

Module Py.

(** [str.lower] and [str.upper] on ASCII text.  Strings are byte strings;
    the case mapping of non-ASCII code points is not part of the model
    (column names of the shards are ASCII identifiers). *)
Definition char_lower (c : ascii) : ascii :=
  let n := N_of_ascii c in
  if ((65 <=? n) && (n <=? 90))%N then ascii_of_N (n + 32) else c.

Definition char_upper (c : ascii) : ascii :=
  let n := N_of_ascii c in
  if ((97 <=? n) && (n <=? 122))%N then ascii_of_N (n - 32) else c.

Fixpoint lower (s : string) : string :=
  match s with
  | EmptyString => EmptyString
  | String c s' => String (char_lower c) (lower s')
  end.

Fixpoint upper (s : string) : string :=
  match s with
  | EmptyString => EmptyString
  | String c s' => String (char_upper c) (upper s')
  end.

(** [sorted] on a sequence of [str]: ascending in the lexicographic order
    of the code points, which on UTF-8 byte strings is the lexicographic
    order of the bytes. *)
Definition sorted (l : list string) : list string := merge_sort String.le l.

(** Truth value of an [int]. *)
Definition truthy (n : Z) : bool := negb (n =? 0).

End Py.

(** ** [os.path.dirname] (POSIX flavour)

    [i = p.rfind('/') + 1; head = p[:i]]; trailing slashes of [head] are
    stripped unless [head] consists of slashes only. *)

Module Path.

Definition is_sep (c : ascii) : bool := bool_decide (c = "/"%char).

Fixpoint drop_while (f : ascii -> bool) (l : list ascii) : list ascii :=
  match l with
  | [] => []
  | c :: l' => if f c then drop_while f l' else l
  end.

Definition dirname (p : string) : string :=
  let head := rev (drop_while (fun c => negb (is_sep c)) (rev (list_ascii_of_string p))) in
  let head' :=
    if forallb is_sep head then head
    else rev (drop_while is_sep (rev head)) in
  string_of_list_ascii head'.

End Path.

(** ** Tables: the data model of the Parquet files *)

Inductive Cell :=
| CStr (s : string)
| CInt (z : Z)
| CNull.

Record Table := mkTable {
  names : list string;        (* [schema.names] *)
  rows : list (list Cell)     (* one list of cells per row *)
}.

Module Tbl.

Definition num_rows (t : Table) : Z := Z.of_nat (length (rows t)).

(** [table.slice(offset, length)].  The program only calls it with
    [offset = 0]; for a [length] below zero, which needs a negative
    [max_rows], the model keeps no row. *)
Definition slice (t : Table) (offset len : Z) : Table :=
  {| names := names t;
     rows := take (Z.to_nat len) (drop (Z.to_nat offset) (rows t)) |}.

Definition column_index (c : string) (ns : list string) : option nat :=
  fst <$> list_find (fun n => n = c) ns.

Definition cell_of (ns : list string) (row : list Cell) (c : string) : Cell :=
  default CNull (i ← column_index c ns; row !! i).

(** The projection read by [pq.read_table(path, columns=cols)]. *)
Definition select (t : Table) (cols : list string) : Table :=
  {| names := cols;
     rows := (fun row => cell_of (names t) row <$> cols) <$> rows t |}.

End Tbl.

(** ** Column resolution (lines 57-68) *)

Section resolution.

Variable available : gset string.

(** One iteration of the loop [for col in columns]: the name appended to
    [resolved_cols], if any. *)
Definition resolve_col (col : string) : option string :=
  if bool_decide (col ∈ available) then Some col
  else
    let lower := Py.lower col in
    if bool_decide (lower ∈ available) then Some lower
    else if bool_decide (Py.upper col = "TEXT") && bool_decide ("caption" ∈ available)
         then Some "caption"
         else None.

(** The loop itself, with [resolved_cols] as accumulator. *)
Fixpoint resolve_loop (resolved_cols : list string) (columns : list string) : list string :=
  match columns with
  | [] => resolved_cols
  | col :: columns' =>
      match resolve_col col with
      | Some name => resolve_loop (resolved_cols ++ [name]) columns'
      | None => resolve_loop resolved_cols columns'
      end
  end.

Definition resolve_columns (columns : list string) : list string :=
  resolve_loop [] columns.

End resolution.

Definition default_columns : list string := ["URL"; "TEXT"].

(** The resolution rules in the words of the specification: exact match
    first, then the lowercased name, then [caption] for a name whose
    uppercase is [TEXT], else nothing. *)
Inductive resolves_to (schema : gset string) (c : string) : option string -> Prop :=
| resolves_exact :
    c ∈ schema ->
    resolves_to schema c (Some c)
| resolves_lower :
    c ∉ schema -> Py.lower c ∈ schema ->
    resolves_to schema c (Some (Py.lower c))
| resolves_caption :
    c ∉ schema -> Py.lower c ∉ schema ->
    Py.upper c = "TEXT" -> "caption" ∈ schema ->
    resolves_to schema c (Some "caption")
| resolves_nothing :
    c ∉ schema -> Py.lower c ∉ schema ->
    ~ (Py.upper c = "TEXT" /\ "caption" ∈ schema) ->
    resolves_to schema c None.


(** ** The Parquet library, as far as the program relies on it

    [pq.ParquetWriter.write_table] belongs to the library, not to the
    program.  It compares the schema of the table it is given with the
    schema the writer was opened on and raises when it does not take the
    table.  [write_accepts] is that comparison; the law relied on throughout
    is that a table with the writer's own schema is taken. *)

Class ParquetLib := {
  write_accepts : list string -> list string -> bool;
  write_accepts_same : forall s, write_accepts s s = true
}.

Lemma bool_decide_same (s : list string) : bool_decide (s = s) = true.
Proof. by apply bool_decide_eq_true. Qed.

(** pyarrow's writer: [write_table] raises [ValueError] ("Table schema does
    not match schema used to create file") unless the table's schema equals
    the file's; on the column names kept here, unless the names are the
    same. *)
Definition strict_lib : ParquetLib :=
  {| write_accepts := fun s t => bool_decide (s = t);
     write_accepts_same := bool_decide_same |}.

(** ** Effects *)

Inductive Message :=
| MsgWrote (rows_written : Z)                          (* line 83 *)
| MsgFinal (out_parquet : string) (rows_written : Z)   (* line 89 *)
| MsgNoData.                                           (* line 91 *)

(** The calls that went through, in the order they were made. *)
Inductive Event :=
| EvReadSchema (path : string)
| EvReadTable (path : string) (columns : list string)
| EvMakedirs (dir : string)
| EvOpenWriter (out_parquet : string) (schema : list string)
| EvWriteTable (table : Table)
| EvCloseWriter
| EvPrint (m : Message).

(** The exceptions.  [ValueError] is the one raised on line 71, with the
    three values its message interpolates; the two others come out of the
    library calls. *)
Inductive Exn :=
| ValueError (columns : list string) (path : string) (available : list string)
| FileNotFoundError (path : string)
| SchemaMismatch (file_schema : list string) (table : Table).

Inductive Outcome :=
| Returned
| Raised (e : Exn).

Record ParquetWriter := mkWriter {
  w_where : string;
  w_schema : list string
}.

(** The two local variables that live across iterations. *)
Record Locals := mkLocals {
  writer : option ParquetWriter;
  rows_written : Z
}.

Inductive Flow :=
| Next
| Break
| Raise (e : Exn).

#[export] Instance Cell_eq_dec : EqDecision Cell.
Proof. solve_decision. Defined.
#[export] Instance Table_eq_dec : EqDecision Table.
Proof. solve_decision. Defined.
#[export] Instance Message_eq_dec : EqDecision Message.
Proof. solve_decision. Defined.
#[export] Instance Event_eq_dec : EqDecision Event.
Proof. solve_decision. Defined.
#[export] Instance Exn_eq_dec : EqDecision Exn.
Proof. solve_decision. Defined.

(** ** [build_subset] (lines 43-91) *)

Section build_subset.

Context `{lib : ParquetLib}.

(** The shards on disk. *)
Variable fs : gmap string Table.

Variable out_parquet : string.
Variable max_rows : Z.
Variable columns : list string.

(** [os.path.dirname(out_parquet) or "."] *)
Definition parent_dir : string :=
  let d := Path.dirname out_parquet in
  if bool_decide (d = "") then "." else d.

Definition available_of (shard : Table) : gset string := list_to_set (names shard).

(** The table of lines 73-75: the resolved projection, cut to the
    remaining budget when the cap would be passed. *)
Definition capped (rows_written : Z) (table : Table) : Table :=
  if Py.truthy max_rows && (rows_written + Tbl.num_rows table >? max_rows)
  then Tbl.slice table 0 (max_rows - rows_written)
  else table.

(** Lines 77-79. *)
Definition open_writer (w : option ParquetWriter) (table : Table)
  : list Event * ParquetWriter :=
  match w with
  | None =>
      ([EvMakedirs parent_dir;
        EvOpenWriter out_parquet (names table)],
       mkWriter out_parquet (names table))
  | Some w => ([], w)
  end.

(** One iteration of [for path in sorted(shard_paths)] (lines 53-85). *)
Definition loop_body (l : Locals) (path : string) : list Event * Locals * Flow :=
  match fs !! path with
  | None => ([], l, Raise (FileNotFoundError path))
  | Some shard =>
      let available := available_of shard in
      let resolved_cols := resolve_columns available columns in
      if bool_decide (resolved_cols = []) then
        ([EvReadSchema path], l,
         Raise (ValueError columns path (Py.sorted (elements available))))
      else
        let table := capped (rows_written l) (Tbl.select shard resolved_cols) in
        let '(opened, w) := open_writer (writer l) table in
        let reads := [EvReadSchema path; EvReadTable path resolved_cols] in
        if write_accepts (w_schema w) (names table) then
          let rows_written := rows_written l + Tbl.num_rows table in
          (reads ++ opened ++ [EvWriteTable table; EvPrint (MsgWrote rows_written)],
           mkLocals (Some w) rows_written,
           if Py.truthy max_rows && (rows_written >=? max_rows) then Break else Next)
        else
          (reads ++ opened, mkLocals (Some w) (rows_written l),
           Raise (SchemaMismatch (w_schema w) table))
  end.

Fixpoint for_loop (l : Locals) (paths : list string) : list Event * Locals * Flow :=
  match paths with
  | [] => ([], l, Next)
  | path :: paths' =>
      let '(ev, l', f) := loop_body l path in
      match f with
      | Next => let '(ev', l'', f') := for_loop l' paths' in (ev ++ ev', l'', f')
      | _ => (ev, l', f)
      end
  end.

Definition initial : Locals := mkLocals None 0.

(** Lines 87-91. *)
Definition finish (l : Locals) : list Event :=
  match writer l with
  | Some _ => [EvCloseWriter; EvPrint (MsgFinal out_parquet (rows_written l))]
  | None => [EvPrint MsgNoData]
  end.

Definition build_subset (shard_paths : list string) : list Event * Outcome :=
  let '(ev, l, f) := for_loop initial (Py.sorted shard_paths) in
  match f with
  | Raise e => (ev, Raised e)
  | _ => (ev ++ finish l, Returned)
  end.

End build_subset.

Arguments build_subset {lib} fs out_parquet max_rows columns shard_paths.
Arguments for_loop {lib} fs out_parquet max_rows columns l paths.
Arguments loop_body {lib} fs out_parquet max_rows columns l path.

(** ** What a trace did to the world *)

Definition written_tables (tr : list Event) : list Table :=
  omap (fun e => match e with EvWriteTable t => Some t | _ => None end) tr.

(** The rows of the output file, batch after batch. *)
Definition output_rows (tr : list Event) : list (list Cell) :=
  concat (rows <$> written_tables tr).

Definition rows_out (tr : list Event) : Z := Z.of_nat (length (output_rows tr)).

(** The shards whose schema was read, in the order of the reads. *)
Definition shards_read (tr : list Event) : list string :=
  omap (fun e => match e with EvReadSchema p => Some p | _ => None end) tr.

Definition opened (tr : list Event) : list (string * list string) :=
  omap (fun e => match e with EvOpenWriter o s => Some (o, s) | _ => None end) tr.

Definition made_dirs (tr : list Event) : list string :=
  omap (fun e => match e with EvMakedirs d => Some d | _ => None end) tr.

Definition file_created (tr : list Event) : bool := negb (bool_decide (opened tr = [])).

Definition closed (tr : list Event) : bool := bool_decide (EvCloseWriter ∈ tr).

Definition printed (tr : list Event) : list Message :=
  omap (fun e => match e with EvPrint m => Some m | _ => None end) tr.

(** The columns a shard resolves the request to, and the projection read
    from it; both are empty for a path with no shard behind it. *)
Definition resolved_at (fs : gmap string Table) (columns : list string) (p : string)
  : list string :=
  from_option (fun shard => resolve_columns (available_of shard) columns) [] (fs !! p).

Definition projection (fs : gmap string Table) (columns : list string) (p : string)
  : Table :=
  from_option (fun shard => Tbl.select shard (resolve_columns (available_of shard) columns))
              (mkTable [] []) (fs !! p).

(** The row count of the shard at a path. *)
Definition shard_rows (fs : gmap string Table) (p : string) : nat :=
  from_option (fun shard => length (rows shard)) 0%nat (fs !! p).

(** The running totals of rows after each of a list of tables, starting
    from [acc]: what the progress lines of line 83 are expected to show. *)
Fixpoint running_totals (acc : Z) (ts : list Table) : list Z :=
  match ts with
  | [] => []
  | t :: ts' => (acc + Tbl.num_rows t) :: running_totals (acc + Tbl.num_rows t) ts'
  end.

(** The loop runs through a list of shards, one complete iteration each,
    when (said of the inputs alone) every one of them resolves at least one
    column, the writer opened on the first takes each of them, and all their
    rows together stay below a cap that is set. *)
Definition runs_through `{lib : ParquetLib} (fs : gmap string Table) (max_rows : Z)
    (columns : list string) (pre : list string) : Prop :=
  Forall (fun q => resolved_at fs columns q <> []) pre /\
  (forall q0, head pre = Some q0 ->
     Forall (fun q => write_accepts (resolved_at fs columns q0)
                                    (resolved_at fs columns q) = true) pre) /\
  (max_rows <> 0 -> Z.of_nat (sum_list_with (shard_rows fs) pre) < max_rows).

(** ** Sample shards *)

Definition numbered (tag : string) (n : nat) : list (list Cell) :=
  (fun i => [CStr tag; CInt (Z.of_nat i)]) <$> seq 0 n.

Definition shard_of (ns : list string) (tag : string) (n : nat) : Table :=
  {| names := ns; rows := numbered tag n |}.

Definition two_shards : gmap string Table :=
  <["a.parquet" := shard_of ["URL"; "TEXT"] "a" 100]>
  (<["b.parquet" := shard_of ["URL"; "TEXT"] "b" 100]> ∅).

(** A good shard followed, in path order, by one without any requested column. *)
Definition broken_tail : gmap string Table :=
  <["a.parquet" := shard_of ["URL"; "TEXT"] "a" 3]>
  (<["z.parquet" := shard_of ["foo"; "bar"] "z" 3]> ∅).

(** A single shard without any requested column. *)
Definition lone_stranger : gmap string Table :=
  <["x.parquet" := shard_of ["foo"; "bar"] "x" 3]> ∅.

(** Two shards that spell the requested columns differently. *)
Definition drifting : gmap string Table :=
  <["a.parquet" := shard_of ["url"; "caption"] "a" 2]>
  (<["b.parquet" := shard_of ["URL"; "TEXT"] "b" 2]> ∅).

Definition returned (o : Outcome) : bool :=
  match o with Returned => true | Raised _ => false end.


(** ** Comma-separated options (lines 144-145)

    [main] turns the [--shards] and [--columns] strings into lists with
    [[x.strip() for x in s.split(",") if x.strip()]]. *)

Module Csv.

(** [str.isspace] on ASCII characters: tab to carriage return, the four
    separators [0x1c]-[0x1f], and the space. *)
Definition is_space (c : ascii) : bool :=
  let n := N_of_ascii c in
  ((9 <=? n) && (n <=? 13) || (28 <=? n) && (n <=? 32))%N.

Fixpoint lstrip (s : string) : string :=
  match s with
  | EmptyString => EmptyString
  | String c s' => if is_space c then lstrip s' else s
  end.

Fixpoint rstrip (s : string) : string :=
  match s with
  | EmptyString => EmptyString
  | String c s' =>
      let r := rstrip s' in
      if is_space c && bool_decide (r = EmptyString) then EmptyString else String c r
  end.

(** [str.strip()] *)
Definition strip (s : string) : string := rstrip (lstrip s).

(** [str.split(sep)] for a one-character separator: never an empty list. *)
Fixpoint split (sep : ascii) (s : string) : list string :=
  match s with
  | EmptyString => [EmptyString]
  | String c s' =>
      if bool_decide (c = sep) then EmptyString :: split sep s'
      else match split sep s' with
           | [] => [String c EmptyString]
           | piece :: pieces => String c piece :: pieces
           end
  end.

(** The comprehension of lines 144 and 145. *)
Definition parse_list (s : string) : list string :=
  strip <$> filter (fun x => strip x <> EmptyString) (split "," s).

Fixpoint contains (c : ascii) (s : string) : bool :=
  match s with
  | EmptyString => false
  | String c' s' => bool_decide (c' = c) || contains c s'
  end.

(** An entry as [parse_list] leaves it: not empty, no blank at either end,
    no comma. *)
Definition clean (x : string) : Prop :=
  x <> EmptyString /\ strip x = x /\ contains "," x = false.

Definition starts_clean (s : string) : Prop :=
  match s with
  | EmptyString => True
  | String c _ => is_space c = false
  end.

Fixpoint all_space (s : string) : bool :=
  match s with
  | EmptyString => true
  | String c s' => is_space c && all_space s'
  end.

(** A string of nothing but commas and whitespace. *)
Fixpoint blank (s : string) : bool :=
  match s with
  | EmptyString => true
  | String c s' => (is_space c || bool_decide (c = ","%char)) && blank s'
  end.

End Csv.

(** ** [os.path.join] (POSIX flavour, two components)

    An absolute second component replaces the first; otherwise the two are
    glued with one slash, unless the first is empty or already ends in one. *)

Module OsPath.

Definition starts_with_sep (s : string) : bool :=
  match s with
  | String c _ => Path.is_sep c
  | EmptyString => false
  end.

Fixpoint ends_with_sep (s : string) : bool :=
  match s with
  | EmptyString => false
  | String c EmptyString => Path.is_sep c
  | String _ s' => ends_with_sep s'
  end.

Definition join (a b : string) : string :=
  if starts_with_sep b then b
  else if bool_decide (a = EmptyString) || ends_with_sep a then a +:+ b
  else a +:+ "/" +:+ b.

(** What [join] puts in front of a relative name. *)
Definition dir_prefix (d : string) : string :=
  if bool_decide (d = EmptyString) || ends_with_sep d then d else d +:+ "/".

End OsPath.

(** ** The platform under [download_shards]

    The Hugging Face hub, [shutil.copy], [os.makedirs] and
    [os.path.exists] are library calls on a world the program does not
    describe.  They are taken as operations on an abstract world; the one
    law relied on is that a copy that went through leaves its destination in
    existence. *)

Inductive LibError :=
| LibErr (what : string).

Class Platform (World : Type) := {
  path_exists : World -> string -> bool;
  hf_hub_download : string -> string -> option string -> World -> LibError + (string * World);
  shutil_copy : string -> string -> World -> LibError + World;
  os_makedirs : string -> World -> LibError + World;
  parquet_files : World -> gmap string Table;
  copy_creates : forall src dst w w',
    shutil_copy src dst w = inr w' -> path_exists w' dst = true
}.

Inductive DlEvent :=
| DlMakedirs (dir : string)
| DlFetch (repo_id shard : string) (token : option string)
| DlCopy (src dst : string)
| DlPrint (shard path : string).                       (* line 39 *)

(** ** [download_shards] (lines 25-40) *)

Section download_shards.

Context {World : Type} `{plat : Platform World}.

Variable repo_id : string.
Variable out_dir : string.
Variable token : option string.

(** One iteration of [for shard in shards] (lines 29-39): the path appended
    to [local_paths] and the world it leaves. *)
Definition fetch_one (w : World) (shard : string)
  : list DlEvent * (LibError + (string * World)) :=
  match hf_hub_download repo_id shard token w with
  | inl e => ([], inl e)
  | inr (src, w1) =>
      let dst := OsPath.join out_dir shard in
      let fetched := [DlFetch repo_id shard token] in
      let copied :=
        if negb (bool_decide (src = dst)) && negb (path_exists w1 dst)
        then match shutil_copy src dst w1 with
             | inl e => inl e
             | inr w2 => inr ([DlCopy src dst], w2)
             end
        else inr ([], w1) in
      match copied with
      | inl e => (fetched, inl e)
      | inr (copies, w2) =>
          let path := if path_exists w2 dst then dst else src in
          (fetched ++ copies ++ [DlPrint shard path], inr (path, w2))
      end
  end.

Fixpoint fetch_loop (local_paths : list string) (w : World) (shards : list string)
  : list DlEvent * (LibError + (list string * World)) :=
  match shards with
  | [] => ([], inr (local_paths, w))
  | shard :: shards' =>
      match fetch_one w shard with
      | (ev, inl e) => (ev, inl e)
      | (ev, inr (path, w')) =>
          let '(ev', r) := fetch_loop (local_paths ++ [path]) w' shards' in
          (ev ++ ev', r)
      end
  end.

Definition download_shards (w : World) (shards : list string)
  : list DlEvent * (LibError + (list string * World)) :=
  match os_makedirs out_dir w with
  | inl e => ([], inl e)
  | inr w' =>
      let '(ev, r) := fetch_loop [] w' shards in
      (DlMakedirs out_dir :: ev, r)
  end.

End download_shards.

(** The shards the hub was asked for and delivered, in order. *)
Definition fetched (tr : list DlEvent) : list string :=
  omap (fun e => match e with DlFetch _ shard _ => Some shard | _ => None end) tr.

Definition copies (tr : list DlEvent) : list (string * string) :=
  omap (fun e => match e with DlCopy src dst => Some (src, dst) | _ => None end) tr.

(** ** [main] (lines 142-150), from the parsed arguments on *)

Record Args := mkArgs {
  a_repo_id : string;
  a_shards : string;
  a_out_dir : string;
  a_out_parquet : string;
  a_max_rows : Z;
  a_columns : string;
  a_hf_token : option string
}.

(** The defaults of [parse_args]. *)
Definition default_args : Args :=
  {| a_repo_id := "laion/laion400m-met-release";
     a_shards := "part-00000-4227e361-38e7-40d5-8822-c6db46ea077c-c000.snappy.parquet";
     a_out_dir := "./laion_meta";
     a_out_parquet := "./laion_meta/laion_subset.parquet";
     a_max_rows := 0;
     a_columns := "URL,TEXT";
     a_hf_token := None |}.

(** [args.hf_token or os.environ.get("HF_TOKEN")] *)
Definition token_of (hf_token env_token : option string) : option string :=
  match hf_token with
  | Some t => if bool_decide (t = EmptyString) then env_token else Some t
  | None => env_token
  end.

Section main.

Context {World : Type} `{plat : Platform World} `{lib : ParquetLib}.

Definition main (args : Args) (env_token : option string) (w : World)
  : list DlEvent * (LibError + (list Event * Outcome)) :=
  let shards := Csv.parse_list (a_shards args) in
  let columns := Csv.parse_list (a_columns args) in
  let token := token_of (a_hf_token args) env_token in
  match download_shards (a_repo_id args) (a_out_dir args) token w shards with
  | (ev, inl e) => (ev, inl e)
  | (ev, inr (shard_paths, w')) =>
      (ev, inr (build_subset (parquet_files w') (a_out_parquet args) (a_max_rows args)
                  columns shard_paths))
  end.

End main.

(** A small platform to run the program on: the hub holds a fixed set of
    files and delivers them into [hub/]; the world is the set of files on
    disk. *)
Definition hub_files : gmap string Table :=
  <["a.parquet" := shard_of ["URL"; "TEXT"] "a" 2]>
  (<["b.parquet" := shard_of ["url"; "caption"] "b" 2]> ∅).

Definition sim_hub (repo_id shard : string) (token : option string)
    (w : gmap string Table) : LibError + (string * gmap string Table) :=
  match hub_files !! shard with
  | Some t => inr ("hub/" +:+ shard, <["hub/" +:+ shard := t]> w)
  | None => inl (LibErr shard)
  end.

Definition sim_copy (src dst : string) (w : gmap string Table)
  : LibError + gmap string Table :=
  match w !! src with
  | Some t => inr (<[dst := t]> w)
  | None => inl (LibErr src)
  end.

Lemma sim_copy_creates (src dst : string) (w w' : gmap string Table) :
  sim_copy src dst w = inr w' -> bool_decide (is_Some (w' !! dst)) = true.
Proof.
  unfold sim_copy. destruct (w !! src) as [t|]; [|done]. intros [= <-].
  apply bool_decide_eq_true. rewrite lookup_insert_eq. by eexists.
Qed.

(** The disk after both files of the hub were downloaded into [meta]. *)
Definition downloaded : gmap string Table :=
  <["meta/a.parquet" := shard_of ["URL"; "TEXT"] "a" 2]>
  (<["hub/a.parquet" := shard_of ["URL"; "TEXT"] "a" 2]>
  (<["meta/b.parquet" := shard_of ["url"; "caption"] "b" 2]>
  (<["hub/b.parquet" := shard_of ["url"; "caption"] "b" 2]> ∅))).

#[export] Instance sim_platform : Platform (gmap string Table) :=
  {| path_exists := fun w p => bool_decide (is_Some (w !! p));
     hf_hub_download := sim_hub;
     shutil_copy := sim_copy;
     os_makedirs := fun _ w => inr w;
     parquet_files := fun w => w;
     copy_creates := sim_copy_creates |}.

(** ** Basic facts *)

Lemma resolve_loop_omap (av : gset string) (cols acc : list string) :
  resolve_loop av acc cols = acc ++ omap (resolve_col av) cols.
Proof.
  revert acc. induction cols as [|c cols IH]; intros acc; simpl.
  - by rewrite app_nil_r.
  - destruct (resolve_col av c) as [n|]; rewrite IH; [|done].
    by rewrite <- app_assoc.
Qed.

Lemma resolve_columns_omap (av : gset string) (cols : list string) :
  resolve_columns av cols = omap (resolve_col av) cols.
Proof. unfold resolve_columns. by rewrite resolve_loop_omap. Qed.

Lemma written_tables_app (a b : list Event) :
  written_tables (a ++ b) = written_tables a ++ written_tables b.
Proof. apply omap_app. Qed.

Lemma output_rows_app (a b : list Event) :
  output_rows (a ++ b) = output_rows a ++ output_rows b.
Proof. unfold output_rows. by rewrite written_tables_app, fmap_app, concat_app. Qed.

Lemma rows_out_app (a b : list Event) : rows_out (a ++ b) = rows_out a + rows_out b.
Proof. unfold rows_out. rewrite output_rows_app, length_app. lia. Qed.

Lemma shards_read_app (a b : list Event) :
  shards_read (a ++ b) = shards_read a ++ shards_read b.
Proof. apply omap_app. Qed.

Lemma opened_app (a b : list Event) : opened (a ++ b) = opened a ++ opened b.
Proof. apply omap_app. Qed.

Lemma made_dirs_app (a b : list Event) : made_dirs (a ++ b) = made_dirs a ++ made_dirs b.
Proof. apply omap_app. Qed.

Lemma printed_app (a b : list Event) : printed (a ++ b) = printed a ++ printed b.
Proof. apply omap_app. Qed.

Lemma closed_app (a b : list Event) : closed (a ++ b) = closed a || closed b.
Proof.
  unfold closed. apply eq_true_iff_eq.
  rewrite orb_true_iff, !bool_decide_eq_true. apply elem_of_app.
Qed.

Lemma sorted_Permutation (l : list string) : Py.sorted l ≡ₚ l.
Proof. apply merge_sort_Permutation. Qed.

Lemma sorted_Sorted (l : list string) : Sorted String.le (Py.sorted l).
Proof. apply (Sorted_merge_sort String.le). Qed.

Lemma sorted_perm_eq (l1 l2 : list string) : l1 ≡ₚ l2 -> Py.sorted l1 = Py.sorted l2.
Proof.
  intros H. apply (Sorted_unique String.le); try apply sorted_Sorted.
  by rewrite !sorted_Permutation.
Qed.

(** ** The loop, piece by piece *)

Section loop_facts.

Context `{lib : ParquetLib}.
Variable fs : gmap string Table.
Variable out_parquet : string.
Variable max_rows : Z.
Variable columns : list string.

Local Abbreviation body := (loop_body fs out_parquet max_rows columns).
Local Abbreviation loop := (for_loop fs out_parquet max_rows columns).

Lemma for_loop_app l pre post :
  loop l (pre ++ post) =
    match loop l pre with
    | (ev, l', Next) => let '(ev', l'', f) := loop l' post in (ev ++ ev', l'', f)
    | r => r
    end.
Proof.
  revert l. induction pre as [|p pre IH]; intros l; simpl.
  - by destruct (loop l post) as [[ev l'] f].
  - destruct (body l p) as [[ev1 l1] f1]. destruct f1; try done.
    rewrite IH. destruct (loop l1 pre) as [[ev2 l2] f2]. destruct f2; try done.
    destruct (loop l2 post) as [[ev3 l3] f3]. by rewrite app_assoc.
Qed.

Lemma for_loop_cons_stop l p post ev l' f :
  body l p = (ev, l', f) -> f <> Next -> loop l (p :: post) = (ev, l', f).
Proof. intros E Hf. simpl. rewrite E. by destruct f. Qed.

Lemma for_loop_reach_stop l pre p post ev1 l1 ev2 l2 f :
  loop l pre = (ev1, l1, Next) -> body l1 p = (ev2, l2, f) -> f <> Next ->
  loop l (pre ++ p :: post) = (ev1 ++ ev2, l2, f).
Proof.
  intros E1 E2 Hf. rewrite for_loop_app, E1.
  by rewrite (for_loop_cons_stop _ _ _ _ _ _ E2 Hf).
Qed.

(** A loop that ends early does so at one shard, after a run of complete
    iterations. *)
Lemma for_loop_stop l paths ev l' f :
  loop l paths = (ev, l', f) -> f <> Next ->
  exists pre p post ev1 l1 ev2,
    paths = pre ++ p :: post /\ loop l pre = (ev1, l1, Next) /\
    body l1 p = (ev2, l', f) /\ ev = ev1 ++ ev2.
Proof.
  revert l ev l' f. induction paths as [|p paths IH]; intros l ev l' f E Hf; simpl in E.
  - by simplify_eq.
  - destruct (body l p) as [[ev1 l1] f1] eqn:E1. destruct f1.
    + destruct (loop l1 paths) as [[ev2 l2] f2] eqn:E2. simplify_eq.
      destruct (IH _ _ _ _ E2 Hf) as (pre & q & post & eva & la & evb & -> & Ha & Hb & ->).
      exists (p :: pre), q, post, (ev1 ++ eva), la, evb. simpl. rewrite E1, Ha.
      by rewrite app_assoc.
    + simplify_eq. by exists [], p, paths, [], l, ev.
    + simplify_eq. by exists [], p, paths, [], l, ev.
Qed.

(** What one iteration can be. *)
Inductive body_case (l : Locals) (p : string) : list Event * Locals * Flow -> Prop :=
| body_missing :
    fs !! p = None ->
    body_case l p ([], l, Raise (FileNotFoundError p))
| body_unresolved shard :
    fs !! p = Some shard ->
    resolve_columns (available_of shard) columns = [] ->
    body_case l p ([EvReadSchema p], l,
                   Raise (ValueError columns p (Py.sorted (elements (available_of shard)))))
| body_written shard rc table w op :
    fs !! p = Some shard ->
    rc = resolve_columns (available_of shard) columns -> rc <> [] ->
    table = capped max_rows (rows_written l) (Tbl.select shard rc) ->
    open_writer out_parquet (writer l) table = (op, w) ->
    write_accepts (w_schema w) (names table) = true ->
    body_case l p
      ([EvReadSchema p; EvReadTable p rc] ++ op ++
         [EvWriteTable table; EvPrint (MsgWrote (rows_written l + Tbl.num_rows table))],
       mkLocals (Some w) (rows_written l + Tbl.num_rows table),
       if Py.truthy max_rows && (rows_written l + Tbl.num_rows table >=? max_rows)
       then Break else Next)
| body_refused shard rc table w :
    fs !! p = Some shard ->
    rc = resolve_columns (available_of shard) columns -> rc <> [] ->
    table = capped max_rows (rows_written l) (Tbl.select shard rc) ->
    writer l = Some w ->
    write_accepts (w_schema w) (names table) = false ->
    body_case l p
      ([EvReadSchema p; EvReadTable p rc], mkLocals (Some w) (rows_written l),
       Raise (SchemaMismatch (w_schema w) table)).

Lemma loop_body_case l p : body_case l p (body l p).
Proof.
  unfold loop_body. destruct (fs !! p) as [shard|] eqn:Hp; [|by constructor].
  case_bool_decide as Hrc; [by econstructor|].
  destruct (open_writer _ _ _) as [op w] eqn:Hop.
  destruct (write_accepts _ _) eqn:Hacc.
  - by eapply body_written.
  - destruct (writer l) as [w0|] eqn:Hw; simpl in Hop; simplify_eq.
    + rewrite app_nil_r. by eapply body_refused.
    + simpl in Hacc. by rewrite write_accepts_same in Hacc.
Qed.


(** *** How the local variables mirror the trace

    The counter is the number of rows appended so far; the writer exists
    exactly when a table was appended, and was opened once, on the schema
    of the first appended table; nothing closes it inside the loop. *)
Definition mirrors (ev : list Event) (l : Locals) : Prop :=
  rows_written l = rows_out ev /\
  writer l = (fun t => mkWriter out_parquet (names t)) <$> head (written_tables ev) /\
  opened ev = (fun t => (out_parquet, names t)) <$> take 1 (written_tables ev) /\
  made_dirs ev = (fun _ => parent_dir out_parquet) <$> take 1 (written_tables ev) /\
  closed ev = false.

Lemma mirrors_initial : mirrors [] initial.
Proof. by repeat split. Qed.

Lemma body_mirrors ev l p ev' l' f :
  mirrors ev l -> body l p = (ev', l', f) -> mirrors (ev ++ ev') l'.
Proof.
  intros (Hr & Hw & Ho & Hd & Hc) E. pose proof (loop_body_case l p) as C.
  rewrite E in C. unfold mirrors.
  rewrite rows_out_app, written_tables_app, opened_app, made_dirs_app, closed_app, Hc.
  inversion C; subst; clear C; simpl.
  - rewrite Z.add_0_r, !app_nil_r. done.
  - rewrite !app_nil_r. unfold rows_out at 2. simpl. rewrite Z.add_0_r. done.
  - destruct (writer l) as [w0|] eqn:Hw0; simpl in *; simplify_eq.
    + destruct (written_tables ev) as [|t0 ts] eqn:Ht; simplify_eq/=.
      rewrite !app_nil_r. repeat split; try done.
      rewrite Hr. f_equal. unfold rows_out, output_rows, Tbl.num_rows. simpl.
      by rewrite app_nil_r.
    + destruct (written_tables ev) as [|t0 ts] eqn:Ht; simplify_eq/=.
      rewrite Ho, Hd. repeat split; try done.
      rewrite Hr. f_equal. unfold rows_out, output_rows, Tbl.num_rows. simpl.
      by rewrite app_nil_r.
  - rewrite !app_nil_r. unfold rows_out at 2. simpl. rewrite Z.add_0_r.
    repeat split; try done. by rewrite <- Hw.
Qed.

Lemma loop_mirrors ev l paths ev' l' f :
  mirrors ev l -> loop l paths = (ev', l', f) -> mirrors (ev ++ ev') l'.
Proof.
  revert ev l ev' l' f. induction paths as [|p paths IH]; intros ev l ev' l' f M E; simpl in E.
  - simplify_eq. by rewrite app_nil_r.
  - destruct (body l p) as [[ev1 l1] f1] eqn:E1.
    pose proof (body_mirrors _ _ _ _ _ _ M E1) as M1.
    destruct f1; simplify_eq; try done.
    destruct (loop l1 paths) as [[ev2 l2] f2] eqn:E2. simplify_eq.
    rewrite app_assoc. by eapply IH.
Qed.

(** *** The row budget *)
Definition within (l : Locals) : Prop :=
  0 <= rows_written l /\ (0 < max_rows -> rows_written l < max_rows).

Lemma within_initial : 0 <= max_rows -> within initial.
Proof. unfold within. simpl. lia. Qed.

Lemma capped_names rw t : names (capped max_rows rw t) = names t.
Proof. unfold capped. by destruct (_ && _). Qed.

(** The rows of the capped table: the first [max_rows - rw] ones when the
    shard would pass the cap, all of them otherwise. *)
Lemma capped_rows rw t :
  rows (capped max_rows rw t) =
    if bool_decide (max_rows <> 0 /\ rw + Tbl.num_rows t > max_rows)
    then take (Z.to_nat (max_rows - rw)) (rows t)
    else rows t.
Proof.
  unfold capped, Py.truthy. case_bool_decide as H.
  - destruct H as [H1 H2]. apply Z.eqb_neq in H1 as ->.
    apply Z.gt_lt, Z.gtb_lt in H2 as ->. done.
  - destruct (max_rows =? 0) eqn:H1; [done|]. apply Z.eqb_neq in H1.
    destruct (_ >? _) eqn:H2; [|done]. apply Z.gtb_lt in H2. lia.
Qed.

Lemma capped_num_rows rw t :
  0 <= rw -> (0 < max_rows -> rw < max_rows) -> 0 <= max_rows ->
  Tbl.num_rows (capped max_rows rw t) =
    if bool_decide (max_rows <> 0 /\ rw + Tbl.num_rows t > max_rows)
    then max_rows - rw
    else Tbl.num_rows t.
Proof.
  intros H0 H1 H2. unfold Tbl.num_rows at 1. rewrite capped_rows.
  case_bool_decide as H; [|done]. unfold Tbl.num_rows in H.
  rewrite length_take. lia.
Qed.

Lemma body_within l p ev l' f :
  0 <= max_rows -> within l -> body l p = (ev, l', f) ->
  0 <= rows_written l' /\ (0 < max_rows -> rows_written l' <= max_rows) /\
  (f = Next -> within l').
Proof.
  intros Hm [H0 H1] E. pose proof (loop_body_case l p) as C.
  rewrite E in C. clear E. unfold within.
  inversion C; subst; clear C; simpl; try (split; [lia|]; split; [lia|done]).
  rewrite capped_num_rows by done.
  unfold Py.truthy. unfold Tbl.num_rows.
  case_bool_decide as Hc.
  - replace (rows_written l + (max_rows - rows_written l)) with max_rows by lia.
    split; [lia|]. split; [lia|].
    destruct (max_rows =? 0) eqn:Hz; [apply Z.eqb_eq in Hz; lia|].
    simpl. destruct (max_rows >=? max_rows) eqn:Hg; [done|]. lia.
  - split; [lia|]. split; [lia|].
    destruct (max_rows =? 0) eqn:Hz; simpl.
    + apply Z.eqb_eq in Hz. lia.
    + apply Z.eqb_neq in Hz. destruct (_ >=? _) eqn:Hg; [done|]. lia.
Qed.

Lemma loop_within l paths ev l' f :
  0 <= max_rows -> within l -> loop l paths = (ev, l', f) ->
  0 <= rows_written l' /\ (0 < max_rows -> rows_written l' <= max_rows) /\
  (f = Next -> within l').
Proof.
  intros Hm. revert l ev l' f.
  induction paths as [|p paths IH]; intros l ev l' f W E; simpl in E.
  - simplify_eq. destruct W. repeat split; try done; lia.
  - destruct (body l p) as [[ev1 l1] f1] eqn:E1.
    pose proof (body_within _ _ _ _ _ Hm W E1) as (B0 & B1 & B2).
    destruct f1; simplify_eq; try done.
    destruct (loop l1 paths) as [[ev2 l2] f2] eqn:E2. simplify_eq.
    eapply IH; [|done]. by apply B2.
Qed.


(** *** An iteration that goes through *)
Lemma body_accepted l p shard :
  fs !! p = Some shard ->
  let rc := resolve_columns (available_of shard) columns in
  let table := capped max_rows (rows_written l) (Tbl.select shard rc) in
  rc <> [] ->
  (forall w, writer l = Some w -> write_accepts (w_schema w) rc = true) ->
  exists op w,
    open_writer out_parquet (writer l) table = (op, w) /\
    body l p =
      ([EvReadSchema p; EvReadTable p rc] ++ op ++
         [EvWriteTable table; EvPrint (MsgWrote (rows_written l + Tbl.num_rows table))],
       mkLocals (Some w) (rows_written l + Tbl.num_rows table),
       if Py.truthy max_rows && (rows_written l + Tbl.num_rows table >=? max_rows)
       then Break else Next).
Proof.
  intros Hp rc table Hrc Hacc. pose proof (loop_body_case l p) as C.
  inversion C as [Hp'|s Hp' Hrc'|s rc' t w op Hp' -> Hrc' -> Hop Hw|s rc' t w Hp' -> Hrc' -> Hl Hw];
    rewrite Hp in Hp'; simplify_eq/=.
  - by exists op, w.
  - rewrite capped_names in Hw. pose proof (Hacc _ Hl) as Ha.
    unfold rc in Ha. simpl in Hw. congruence.
Qed.

Lemma rows_out_body_written (reads op : list Event) table m :
  written_tables reads = [] -> written_tables op = [] ->
  output_rows (reads ++ op ++ [EvWriteTable table; EvPrint m]) = rows table.
Proof.
  intros H1 H2. unfold output_rows.
  rewrite !written_tables_app, H1, H2. simpl. by rewrite app_nil_r.
Qed.

Lemma body_unresolved_eq l p shard :
  fs !! p = Some shard ->
  resolve_columns (available_of shard) columns = [] ->
  body l p = ([EvReadSchema p], l,
              Raise (ValueError columns p (Py.sorted (elements (available_of shard))))).
Proof. intros Hp Hrc. unfold loop_body. rewrite Hp, Hrc. done. Qed.

Lemma body_value_error l p ev l' c q av :
  body l p = (ev, l', Raise (ValueError c q av)) ->
  exists shard,
    fs !! p = Some shard /\
    resolve_columns (available_of shard) columns = [] /\
    q = p /\ c = columns /\ av = Py.sorted (elements (available_of shard)) /\
    ev = [EvReadSchema p] /\ l' = l.
Proof.
  intros E. pose proof (loop_body_case l p) as C. rewrite E in C. clear E.
  inversion C as [Hp|s Hp Hrc|s rc t w op Hp -> Hrc -> Hop Hw Hev|]; subst.
  - by exists s.
  - by destruct (_ && _).
Qed.

Lemma open_writer_no_write w table op w' :
  open_writer out_parquet w table = (op, w') -> written_tables op = [].
Proof. unfold open_writer. destruct w; intros; by simplify_eq. Qed.

Lemma select_length shard rc : length (rows (Tbl.select shard rc)) = length (rows shard).
Proof. simpl. by rewrite length_fmap. Qed.

End loop_facts.

(** ** Which shards are read, and where their rows go *)

Section order_facts.

Context `{lib : ParquetLib}.
Variable fs : gmap string Table.
Variable out_parquet : string.
Variable max_rows : Z.
Variable columns : list string.

Local Abbreviation body := (loop_body fs out_parquet max_rows columns).
Local Abbreviation loop := (for_loop fs out_parquet max_rows columns).

Lemma names_projection p : names (projection fs columns p) = resolved_at fs columns p.
Proof. unfold projection, resolved_at. by destruct (fs !! p). Qed.

Lemma projection_length p :
  length (rows (projection fs columns p)) = shard_rows fs p.
Proof.
  unfold projection, shard_rows. destruct (fs !! p); simpl; [|done].
  by rewrite length_fmap.
Qed.

Lemma open_writer_no_read w table op w' :
  open_writer out_parquet w table = (op, w') -> shards_read op = [].
Proof. unfold open_writer. destruct w; intros; by simplify_eq. Qed.

Lemma capped_prefix rw t : rows (capped max_rows rw t) `prefix_of` rows t.
Proof. rewrite capped_rows. case_bool_decide; [apply prefix_take|done]. Qed.

(** One iteration reads its shard (unless the file is missing) and
    appends at most a prefix of the shard's projection. *)
Lemma body_chunk l p ev l' f :
  body l p = (ev, l', f) ->
  (f = Raise (FileNotFoundError p) /\ ev = []) \/
  (shards_read ev = [p] /\ is_Some (fs !! p) /\
   output_rows ev `prefix_of` rows (projection fs columns p)).
Proof.
  intros E. pose proof (loop_body_case fs out_parquet max_rows columns l p) as C.
  rewrite E in C. clear E.
  inversion C as [Hp|s Hp Hrc|s rc t w op Hp -> Hrc -> Hop Hw|s rc t w Hp -> Hrc -> Hl Hw];
    subst; [by left|right..].
  - split; [done|]. split; [by eexists|]. apply prefix_nil.
  - split; [|split; [by eexists|]].
    + change (EvReadSchema p :: EvReadTable p ?rc :: op ++ ?x)
        with ([EvReadSchema p; EvReadTable p rc] ++ op ++ x).
      rewrite !shards_read_app, (open_writer_no_read _ _ _ _ Hop). done.
    + change (EvReadSchema p :: EvReadTable p ?rc :: op ++ ?x)
        with ([EvReadSchema p; EvReadTable p rc] ++ op ++ x).
      rewrite rows_out_body_written; [|done|by eapply open_writer_no_write].
      unfold projection. rewrite Hp. apply capped_prefix.
  - split; [done|]. split; [by eexists|]. apply prefix_nil.
Qed.

Lemma body_flow_reads l p ev l' f :
  body l p = (ev, l', f) -> (forall e, f <> Raise e) -> shards_read ev = [p].
Proof.
  intros E Hf. destruct (body_chunk _ _ _ _ _ E) as [[-> _]|[H _]]; [|done].
  by destruct (Hf (FileNotFoundError p)).
Qed.

(** A loop that runs to its end has read every path, in order. *)
Lemma loop_reads_next l paths ev l' :
  loop l paths = (ev, l', Next) -> shards_read ev = paths.
Proof.
  revert l ev l'. induction paths as [|p paths IH]; intros l ev l' E; simpl in E.
  - by simplify_eq.
  - destruct (body l p) as [[ev1 l1] f1] eqn:E1. destruct f1; simplify_eq.
    destruct (loop l1 paths) as [[ev2 l2] f2] eqn:E2. simplify_eq.
    rewrite shards_read_app, (IH _ _ _ E2).
    rewrite (body_flow_reads _ _ _ _ _ E1); done.
Qed.

(** The rows appended by the loop are, shard after shard in the order of
    the reads, prefixes of the shards' projections. *)
Lemma loop_chunks l paths ev l' f :
  loop l paths = (ev, l', f) ->
  shards_read ev `prefix_of` paths /\
  exists chunks,
    output_rows ev = concat chunks /\
    Forall2 (fun chunk p => chunk `prefix_of` rows (projection fs columns p))
            chunks (shards_read ev).
Proof.
  revert l ev l' f. induction paths as [|p paths IH]; intros l ev l' f E; simpl in E.
  - simplify_eq. split; [done|]. exists []. by split.
  - destruct (body l p) as [[ev1 l1] f1] eqn:E1.
    assert (shards_read ev1 `prefix_of` p :: paths /\
            exists chunks, output_rows ev1 = concat chunks /\
              Forall2 (fun chunk p => chunk `prefix_of` rows (projection fs columns p))
                      chunks (shards_read ev1)) as Hstop.
    { destruct (body_chunk _ _ _ _ _ E1) as [[-> ->]|(Hr & _ & Hpre)].
      - split; [apply prefix_nil|]. exists []. by split.
      - rewrite Hr. split; [apply (prefix_app_r [p] [p] paths); done|].
        exists [output_rows ev1]. simpl. rewrite app_nil_r. split; [done|].
        by repeat constructor. }
    destruct f1; simplify_eq; try done.
    destruct (loop l1 paths) as [[ev2 l2] f2] eqn:E2. simplify_eq.
    destruct (IH _ _ _ _ E2) as (Hp2 & chunks2 & Ho2 & Hc2).
    rewrite shards_read_app, output_rows_app.
    rewrite (body_flow_reads _ _ _ _ _ E1) by done.
    destruct (body_chunk _ _ _ _ _ E1) as [[? _]|(_ & _ & Hpre)]; [done|].
    split; [by apply (prefix_cons p)|].
    exists (output_rows ev1 :: chunks2). simpl. rewrite Ho2. split; [done|].
    by constructor.
Qed.

(** *** No cap: everything goes through *)
Lemma loop_unbounded paths l :
  max_rows = 0 ->
  Forall (fun p => resolved_at fs columns p <> []) paths ->
  (forall s,
      from_option (fun w => Some (w_schema w))
                  (head (resolved_at fs columns <$> paths)) (writer l) = Some s ->
      Forall (fun p => write_accepts s (resolved_at fs columns p) = true) paths) ->
  exists ev l',
    loop l paths = (ev, l', Next) /\
    written_tables ev = projection fs columns <$> paths.
Proof.
  intros Hz. revert l. induction paths as [|p paths IH]; intros l Hres Hacc; simpl.
  - by exists [], l.
  - apply Forall_cons in Hres as [Hp Hres].
    unfold resolved_at in Hp. destruct (fs !! p) as [shard|] eqn:Hfs; [|done].
    simpl in Hp.
    destruct (body_accepted fs out_parquet max_rows columns l p shard Hfs Hp)
      as (op & w & Hop & Hb).
    { intros w Hw. rewrite Hw in Hacc. simpl in Hacc.
      specialize (Hacc _ eq_refl). apply Forall_cons in Hacc as [Ha _].
      unfold resolved_at in Ha. by rewrite Hfs in Ha. }
    assert (capped max_rows (rows_written l)
              (Tbl.select shard (resolve_columns (available_of shard) columns)) =
            projection fs columns p) as Ht.
    { unfold projection, capped, Py.truthy. rewrite Hfs, Hz. done. }
    rewrite Ht in Hb, Hop.
    replace (Py.truthy max_rows) with false in Hb by (by rewrite Hz).
    simpl in Hb. rewrite Hb.
    destruct (IH (mkLocals (Some w)
                    (rows_written l + Tbl.num_rows (projection fs columns p))) Hres)
      as (ev & l' & E & Hwt).
    { simpl. intros s [= <-].
      assert (w_schema w = from_option (fun w => w_schema w)
                             (resolved_at fs columns p) (writer l)) as Hws.
      { unfold open_writer in Hop. destruct (writer l); simplify_eq/=; [done|].
        by rewrite names_projection. }
      destruct (writer l) as [w0|] eqn:Hw0; simpl in *.
      - specialize (Hacc _ eq_refl). apply Forall_cons in Hacc as [_ Ha].
        by rewrite Hws.
      - specialize (Hacc _ eq_refl). apply Forall_cons in Hacc as [_ Ha].
        by rewrite Hws. }
    rewrite E. eexists _, _. split; [done|].
    change (EvReadSchema p :: EvReadTable p ?rc :: op ++ ?x)
      with ([EvReadSchema p; EvReadTable p rc] ++ op ++ x).
    rewrite !written_tables_app, (open_writer_no_write _ _ _ _ _ Hop), Hwt.
    done.
Qed.

(** *** What an iteration leaves behind

    Either it raises, and then it appended and printed nothing; or it
    appended one table, a prefix of the projection of its own shard under
    that shard's own resolved names, and printed the running total. *)
Lemma body_step l p ev l' f :
  body l p = (ev, l', f) ->
  ((exists e, f = Raise e) /\ written_tables ev = [] /\ printed ev = []) \/
  (exists t,
      written_tables ev = [t] /\ shards_read ev = [p] /\
      printed ev = [MsgWrote (rows_written l')] /\
      names t = resolved_at fs columns p /\
      rows t `prefix_of` rows (projection fs columns p) /\
      resolved_at fs columns p <> [] /\
      (f = Next \/ (f = Break /\ max_rows <> 0 /\ max_rows <= rows_written l'))).
Proof.
  intros E. pose proof (loop_body_case fs out_parquet max_rows columns l p) as C.
  rewrite E in C. clear E.
  inversion C as [Hp|s Hp Hrc|s rc t w op Hp -> Hrc -> Hop Hw|s rc t w Hp -> Hrc -> Hl Hw];
    subst; [left; by eauto|left; by eauto|right|left; by eauto].
  eexists. change (EvReadSchema p :: EvReadTable p ?rc :: op ++ ?x)
    with ([EvReadSchema p; EvReadTable p rc] ++ op ++ x).
  rewrite !written_tables_app, !shards_read_app, !printed_app.
  rewrite (open_writer_no_write _ _ _ _ _ Hop), (open_writer_no_read _ _ _ _ Hop).
  assert (printed op = []) as ->
    by (unfold open_writer in Hop; destruct (writer l); by simplify_eq).
  simpl. split; [done|]. split; [done|]. split; [done|].
  rewrite capped_names. unfold resolved_at, projection. rewrite Hp. simpl.
  split; [done|]. split; [apply capped_prefix|]. split; [done|].
  unfold Py.truthy. destruct (max_rows =? 0) eqn:Hz; simpl; [by left|].
  apply Z.eqb_neq in Hz.
  destruct (_ >=? _) eqn:Hg; [right|by left].
  apply Z.geb_le in Hg. done.
Qed.

(** Every completed iteration appends one table and prints one line. *)
Lemma loop_counts l paths ev l' f :
  loop l paths = (ev, l', f) ->
  length (printed ev) = length (written_tables ev) /\
  (f = Next -> length (written_tables ev) = length paths) /\
  (f = Break -> written_tables ev <> []) /\
  (f = Break -> max_rows <> 0 /\ max_rows <= rows_written l').
Proof.
  revert l ev l' f. induction paths as [|p paths IH]; intros l ev l' f E; simpl in E.
  - by simplify_eq.
  - destruct (body l p) as [[ev1 l1] f1] eqn:E1.
    destruct (body_step _ _ _ _ _ E1)
      as [([e ->] & Hw & Hp)|(t & Hw & _ & Hp & _ & _ & _ & Hf)].
    + injection E as <- <- <-. by rewrite Hw, Hp.
    + destruct Hf as [->|(-> & Hz & Hle)].
      * destruct (loop l1 paths) as [[ev2 l2] f2] eqn:E2. simplify_eq.
        destruct (IH _ _ _ _ E2) as (H1 & H2 & H3 & H4).
        rewrite printed_app, written_tables_app, !length_app, Hw, Hp, H1. simpl.
        split; [done|]. split; [intros Hn; by rewrite (H2 Hn)|].
        split; [done|]. apply H4.
      * injection E as <- <- <-. rewrite Hw, Hp. repeat split; try done.
Qed.

(** The appended tables are, in order, those of the first shards read,
    each under its own resolved names. *)
Lemma loop_tables l paths ev l' f :
  loop l paths = (ev, l', f) ->
  Forall2 (fun t p => names t = resolved_at fs columns p /\
                      rows t `prefix_of` rows (projection fs columns p))
          (written_tables ev)
          (take (length (written_tables ev)) (shards_read ev)).
Proof.
  revert l ev l' f. induction paths as [|p paths IH]; intros l ev l' f E; simpl in E.
  - simplify_eq. constructor.
  - destruct (body l p) as [[ev1 l1] f1] eqn:E1.
    destruct (body_step _ _ _ _ _ E1)
      as [([e ->] & Hw & Hp)|(t & Hw & Hr & Hp & Hn & Hpre & _ & Hf)].
    + injection E as <- <- <-. rewrite Hw. constructor.
    + assert (Forall2 (fun t p => names t = resolved_at fs columns p /\
                                  rows t `prefix_of` rows (projection fs columns p))
                      (written_tables ev1)
                      (take (length (written_tables ev1)) (shards_read ev1))) as H1.
      { rewrite Hw, Hr. simpl. by repeat constructor. }
      destruct Hf as [->|(-> & _)]; [|by injection E as <- <- <-].
      destruct (loop l1 paths) as [[ev2 l2] f2] eqn:E2. simplify_eq.
      rewrite written_tables_app, shards_read_app, Hw, Hr. simpl.
      constructor; [done|]. by eapply IH.
Qed.

End order_facts.

(** ** From the loop to the whole call *)

Section call_facts.

Context `{lib : ParquetLib}.
Variable fs : gmap string Table.
Variable out_parquet : string.
Variable max_rows : Z.
Variable columns : list string.

Lemma finish_quiet l :
  written_tables (finish out_parquet l) = [] /\
  shards_read (finish out_parquet l) = [] /\
  opened (finish out_parquet l) = [] /\
  made_dirs (finish out_parquet l) = [].
Proof. unfold finish. by destruct (writer l). Qed.

(** The trace of a call is the trace of its loop, followed by the closing
    lines when the loop did not raise. *)
Lemma build_subset_view shard_paths :
  exists ev l f,
    for_loop fs out_parquet max_rows columns initial (Py.sorted shard_paths) = (ev, l, f) /\
    mirrors out_parquet ev l /\
    build_subset fs out_parquet max_rows columns shard_paths =
      match f with
      | Raise e => (ev, Raised e)
      | _ => (ev ++ finish out_parquet l, Returned)
      end /\
    let tr := (build_subset fs out_parquet max_rows columns shard_paths).1 in
    written_tables tr = written_tables ev /\
    shards_read tr = shards_read ev /\
    opened tr = opened ev /\
    made_dirs tr = made_dirs ev.
Proof.
  unfold build_subset.
  destruct (for_loop _ _ _ _ _ _) as [[ev l] f] eqn:E.
  exists ev, l, f. split; [done|].
  split; [apply (loop_mirrors _ _ _ _ [] _ _ _ _ _ (mirrors_initial out_parquet) E)|].
  split; [done|].
  destruct (finish_quiet l) as (F1 & F2 & F3 & F4).
  destruct f; simpl;
    rewrite ?written_tables_app, ?shards_read_app, ?opened_app, ?made_dirs_app,
      ?F1, ?F2, ?F3, ?F4, ?app_nil_r;
    done.
Qed.

Lemma output_rows_view (tr ev : list Event) :
  written_tables tr = written_tables ev -> output_rows tr = output_rows ev.
Proof. unfold output_rows. by intros ->. Qed.

End call_facts.

Lemma projection_rows_total (fs : gmap string Table) (columns ps : list string) :
  length (concat (rows <$> (projection fs columns <$> ps))) =
    sum_list_with (shard_rows fs) ps.
Proof.
  induction ps as [|p ps IH]; [done|].
  rewrite !fmap_cons. cbn [concat sum_list_with].
  by rewrite length_app, projection_length, IH.
Qed.

Lemma prefix_app_full {A} (ra rb pa pb : list A) :
  ra `prefix_of` pa -> rb `prefix_of` pb -> ra ++ rb = pa ++ pb -> ra = pa /\ rb = pb.
Proof.
  intros [k1 ->] [k2 ->] H.
  assert (length k1 = 0%nat /\ length k2 = 0%nat) as [H1 H2].
  { apply (f_equal length) in H. rewrite !length_app in H. lia. }
  destruct k1, k2; try done. by rewrite !app_nil_r.
Qed.

(** ** Reaching a shard, and what can be raised there *)

Section reach_facts.

Context `{lib : ParquetLib}.
Variable fs : gmap string Table.
Variable out_parquet : string.
Variable max_rows : Z.
Variable columns : list string.

Local Abbreviation body := (loop_body fs out_parquet max_rows columns).
Local Abbreviation loop := (for_loop fs out_parquet max_rows columns).

Lemma writer_schema_after (ow : option ParquetWriter) table op w :
  open_writer out_parquet ow table = (op, w) ->
  w_schema w = from_option w_schema (names table) ow.
Proof. unfold open_writer. destruct ow; intros; by simplify_eq. Qed.

(** Shards that resolve, are taken by the writer and stay below the cap are
    each written in full, and the loop goes on after them. *)
Lemma loop_runs_through pre l :
  0 <= rows_written l ->
  Forall (fun q => resolved_at fs columns q <> []) pre ->
  (forall s,
      from_option (fun w => Some (w_schema w))
                  (head (resolved_at fs columns <$> pre)) (writer l) = Some s ->
      Forall (fun q => write_accepts s (resolved_at fs columns q) = true) pre) ->
  (max_rows <> 0 ->
   rows_written l + Z.of_nat (sum_list_with (shard_rows fs) pre) < max_rows) ->
  exists ev l',
    loop l pre = (ev, l', Next) /\
    written_tables ev = projection fs columns <$> pre.
Proof.
  revert l. induction pre as [|p pre IH]; intros l Hrw Hres Hacc Hsum.
  - by exists [], l.
  - apply Forall_cons in Hres as [Hp Hres].
    unfold resolved_at in Hp. destruct (fs !! p) as [shard|] eqn:Hfs; [|done].
    simpl in Hp.
    destruct (body_accepted fs out_parquet max_rows columns l p shard Hfs Hp)
      as (op & w & Hop & Hb).
    { intros w Hw. rewrite Hw in Hacc. simpl in Hacc.
      specialize (Hacc _ eq_refl). apply Forall_cons in Hacc as [Ha _].
      unfold resolved_at in Ha. by rewrite Hfs in Ha. }
    set (sel := Tbl.select shard (resolve_columns (available_of shard) columns)) in *.
    assert (projection fs columns p = sel) as Hproj
      by (unfold projection; by rewrite Hfs).
    assert (shard_rows fs p = length (rows sel)) as Hlen.
    { unfold shard_rows. rewrite Hfs. simpl. by rewrite length_fmap. }
    cbn [sum_list_with] in Hsum. rewrite Hlen in Hsum.
    assert (capped max_rows (rows_written l) sel = sel) as Hcap.
    { unfold capped, Py.truthy, Tbl.num_rows.
      destruct (max_rows =? 0) eqn:Hz; [done|]. apply Z.eqb_neq in Hz.
      cbn [negb andb]. destruct (_ >? _) eqn:Hgt; [|done].
      apply Z.gtb_lt in Hgt. specialize (Hsum Hz). unfold Tbl.num_rows in *. lia. }
    assert (Hws := writer_schema_after _ _ _ _ Hop).
    rewrite Hcap in Hb, Hop, Hws.
    assert (Py.truthy max_rows && (rows_written l + Tbl.num_rows sel >=? max_rows) = false)
      as Hgo.
    { unfold Py.truthy, Tbl.num_rows.
      destruct (max_rows =? 0) eqn:Hz; [done|]. apply Z.eqb_neq in Hz.
      cbn [negb andb]. destruct (_ >=? _) eqn:Hge; [|done].
      apply Z.geb_le in Hge. specialize (Hsum Hz). unfold Tbl.num_rows in *. lia. }
    rewrite Hgo in Hb.
    destruct (IH (mkLocals (Some w) (rows_written l + Tbl.num_rows sel)))
      as (ev & l' & E & Hwt); [unfold Tbl.num_rows; cbn [rows_written]; lia|done| |
                               |].
    { simpl. intros s [= <-]. rewrite Hws.
      destruct (writer l) as [w0|] eqn:Hw0; simpl in *.
      - specialize (Hacc _ eq_refl). by apply Forall_cons in Hacc as [_ Ha].
      - unfold resolved_at in Hacc at 1. rewrite Hfs in Hacc. simpl in Hacc.
        specialize (Hacc _ eq_refl). by apply Forall_cons in Hacc as [_ Ha]. }
    { intros Hz. specialize (Hsum Hz). unfold Tbl.num_rows. cbn [rows_written]. lia. }
    cbn [for_loop]. rewrite Hb, E. eexists _, _. split; [done|].
    change (EvReadSchema p :: EvReadTable p ?rc :: op ++ ?x)
      with ([EvReadSchema p; EvReadTable p rc] ++ op ++ x).
    rewrite !written_tables_app, (open_writer_no_write _ _ _ _ _ Hop), Hwt.
    simpl. by rewrite Hproj.
Qed.

Lemma body_next l p ev l' :
  body l p = (ev, l', Next) ->
  exists shard op w,
    fs !! p = Some shard /\
    resolve_columns (available_of shard) columns <> [] /\
    open_writer out_parquet (writer l)
      (capped max_rows (rows_written l)
         (Tbl.select shard (resolve_columns (available_of shard) columns))) = (op, w) /\
    write_accepts (w_schema w) (resolve_columns (available_of shard) columns) = true /\
    l' = mkLocals (Some w)
           (rows_written l +
            Tbl.num_rows (capped max_rows (rows_written l)
              (Tbl.select shard (resolve_columns (available_of shard) columns)))) /\
    Py.truthy max_rows &&
      (rows_written l +
       Tbl.num_rows (capped max_rows (rows_written l)
         (Tbl.select shard (resolve_columns (available_of shard) columns)))
       >=? max_rows) = false.
Proof.
  unfold loop_body. destruct (fs !! p) as [shard|]; [|done].
  case_bool_decide as Hrc; [done|].
  destruct (open_writer _ _ _) as [op w] eqn:Hop.
  destruct (write_accepts _ _) eqn:Hacc; [|done].
  rewrite capped_names in Hacc. simpl in Hacc.
  destruct (Py.truthy max_rows && _) eqn:Hf; [done|].
  intros [= <- <-]. by exists shard, op, w.
Qed.

(** Conversely, a loop that went on after a list of shards found each of
    them resolving, taken by the writer, and all of them below the cap. *)
Lemma loop_next_inv pre l ev l' :
  0 <= max_rows -> within max_rows l -> loop l pre = (ev, l', Next) ->
  Forall (fun q => resolved_at fs columns q <> []) pre /\
  (forall s,
      from_option (fun w => Some (w_schema w))
                  (head (resolved_at fs columns <$> pre)) (writer l) = Some s ->
      Forall (fun q => write_accepts s (resolved_at fs columns q) = true) pre) /\
  (max_rows <> 0 ->
   rows_written l + Z.of_nat (sum_list_with (shard_rows fs) pre) < max_rows).
Proof.
  intros Hmax. revert l ev l'.
  induction pre as [|p pre IH]; intros l ev l' W E.
  - split; [constructor|]. split; [intros; constructor|].
    intros Hz. destruct W as [W0 W1]. simpl. specialize (W1 ltac:(lia)). lia.
  - cbn [for_loop] in E. destruct (body l p) as [[ev1 l1] f1] eqn:E1.
    destruct f1; [|done|done].
    destruct (loop l1 pre) as [[ev2 l2] f2] eqn:E2. injection E as <- <- ->.
    pose proof (body_within _ _ _ _ _ _ _ _ _ Hmax W E1) as (_ & _ & W1).
    specialize (W1 eq_refl).
    destruct (IH _ _ _ W1 E2) as (Hres & Hacc & Hsum).
    destruct (body_next _ _ _ _ E1) as (shard & op & w & Hp & Hrc & Hop & Hw & -> & Hf).
    set (sel := Tbl.select shard (resolve_columns (available_of shard) columns)) in *.
    assert (resolved_at fs columns p = names sel) as Hnames
      by (unfold resolved_at; by rewrite Hp).
    assert (shard_rows fs p = length (rows sel)) as Hlen.
    { unfold shard_rows. rewrite Hp. subst sel. simpl. by rewrite length_fmap. }
    assert (Hws := writer_schema_after _ _ _ _ Hop).
    rewrite capped_names in Hws.
    destruct W as [W0 Wlt].
    pose proof (capped_num_rows max_rows (rows_written l) sel W0 Wlt Hmax) as Hnum.
    unfold Py.truthy in Hf. cbn [rows_written writer] in *.
    assert (Tbl.num_rows (capped max_rows (rows_written l) sel) = Tbl.num_rows sel /\
            (max_rows <> 0 -> rows_written l + Tbl.num_rows sel < max_rows))
      as [Hfull Hbelow].
    { destruct (max_rows =? 0) eqn:Hz.
      - apply Z.eqb_eq in Hz. rewrite bool_decide_eq_false_2 in Hnum by (intros []; done).
        done.
      - apply Z.eqb_neq in Hz. cbn [negb andb] in Hf.
        assert (rows_written l + Tbl.num_rows (capped max_rows (rows_written l) sel)
                < max_rows) as Hlt.
        { apply Z.lt_nge. intros H. apply Z.geb_le in H. congruence. }
        case_bool_decide as Hover; [lia|]. rewrite Hnum in Hlt. done. }
    rewrite Hfull in Hsum. unfold Tbl.num_rows in Hsum, Hbelow.
    split; [|split].
    + constructor; [|done]. rewrite Hnames. done.
    + intros s Hs. cbn [fmap list_fmap head] in Hs.
      assert (w_schema w = s) as Hsw.
      { rewrite Hws. destruct (writer l); simpl in *; [by simplify_eq|].
        rewrite Hnames in Hs. by simplify_eq. }
      constructor; [by rewrite Hnames, <- Hsw|].
      apply Hacc. simpl. by rewrite Hsw.
    + intros Hz. cbn [sum_list_with]. rewrite Hlen.
      specialize (Hsum Hz). specialize (Hbelow Hz). lia.
Qed.

(** *** The three ways an iteration raises *)
Lemma body_raise l p ev l' e :
  body l p = (ev, l', Raise e) ->
  (e = FileNotFoundError p /\ fs !! p = None /\ ev = []) \/
  (exists shard,
      fs !! p = Some shard /\ resolved_at fs columns p = [] /\
      e = ValueError columns p (Py.sorted (elements (available_of shard))) /\
      ev = [EvReadSchema p]) \/
  (exists w t,
      writer l = Some w /\ e = SchemaMismatch (w_schema w) t /\
      write_accepts (w_schema w) (names t) = false /\
      names t = resolved_at fs columns p /\ resolved_at fs columns p <> [] /\
      written_tables ev = [] /\ shards_read ev = [p]).
Proof.
  intros E. pose proof (loop_body_case fs out_parquet max_rows columns l p) as C.
  rewrite E in C. clear E.
  inversion C as [Hp|s Hp Hrc|s rc t w op Hp -> Hrc -> Hop Hw Hev|s rc t w Hp -> Hrc -> Hl Hw];
    subst.
  - by left.
  - right; left. exists s. unfold resolved_at. by rewrite Hp.
  - by destruct (_ && _).
  - right; right. eexists _, _. split; [done|]. split; [done|]. split; [done|].
    rewrite capped_names. unfold resolved_at. rewrite Hp. done.
Qed.

(** *** What was appended was taken by the writer *)
Definition all_accepted (ev : list Event) (l : Locals) : Prop :=
  match writer l with
  | None => written_tables ev = []
  | Some w => Forall (fun t => write_accepts (w_schema w) (names t) = true)
                     (written_tables ev)
  end.

Lemma body_all_accepted ev l p ev' l' f :
  all_accepted ev l -> body l p = (ev', l', f) -> all_accepted (ev ++ ev') l'.
Proof.
  intros A E. pose proof (loop_body_case fs out_parquet max_rows columns l p) as C.
  rewrite E in C. clear E. unfold all_accepted in *. rewrite written_tables_app.
  inversion C as [Hp|s Hp Hrc|s rc t w op Hp -> Hrc -> Hop Hw|s rc t w Hp -> Hrc -> Hl Hw];
    subst; simpl.
  - by rewrite app_nil_r.
  - by rewrite app_nil_r.
  - change (EvReadSchema p :: EvReadTable p ?rc :: op ++ ?x)
      with ([EvReadSchema p; EvReadTable p rc] ++ op ++ x).
    rewrite !written_tables_app, (open_writer_no_write _ _ _ _ _ Hop). simpl.
    unfold open_writer in Hop. destruct (writer l) as [w0|]; simplify_eq/=.
    + apply Forall_app. split; [done|]. by repeat constructor.
    + rewrite A. simpl. by repeat constructor.
  - rewrite app_nil_r. by rewrite Hl in A.
Qed.

Lemma loop_all_accepted ev l paths ev' l' f :
  all_accepted ev l -> loop l paths = (ev', l', f) -> all_accepted (ev ++ ev') l'.
Proof.
  revert ev l ev' l' f. induction paths as [|p paths IH]; intros ev l ev' l' f A E;
    simpl in E.
  - injection E as <- <- <-. by rewrite app_nil_r.
  - destruct (body l p) as [[ev1 l1] f1] eqn:E1.
    pose proof (body_all_accepted _ _ _ _ _ _ A E1) as A1.
    destruct f1; [|by injection E as <- <- <-..].
    destruct (loop l1 paths) as [[ev2 l2] f2] eqn:E2. injection E as <- <- <-.
    rewrite app_assoc. by eapply IH.
Qed.

End reach_facts.

(** Every table in the output was taken by the writer against the schema of
    the first one. *)
Lemma written_tables_accepted `{lib : ParquetLib} (fs : gmap string Table)
    (out_parquet : string) (max_rows : Z) (columns shard_paths : list string) t0 :
  let r := build_subset fs out_parquet max_rows columns shard_paths in
  head (written_tables r.1) = Some t0 ->
  Forall (fun t => write_accepts (names t0) (names t) = true) (written_tables r.1).
Proof.
  intros r.
  destruct (build_subset_view fs out_parquet max_rows columns shard_paths)
    as (ev & l & f & E & (_ & Hw & _) & _ & Hwt & _).
  fold r in Hwt. rewrite Hwt. intros Hh.
  assert (all_accepted [] initial) as A0 by done.
  pose proof (loop_all_accepted _ _ _ _ _ _ _ _ _ _ A0 E) as A.
  unfold all_accepted in A. simpl in A. rewrite Hw, Hh in A. exact A.
Qed.

(** ** The row cap *)

(** C1. With [max_rows > 0] the output never holds more than [max_rows]
    rows.  A shard that the loop reaches and whose row count would push the
    total past the cap contributes exactly its first
    [max_rows - rows written so far] rows, which fills the budget: it is cut,
    not dropped.  For two shards of 100 rows and a cap of 150, the output is
    the 100 rows of [a.parquet] followed by the first 50 of [b.parquet]. *)
Theorem build_subset_row_cap `{lib : ParquetLib}
    (fs : gmap string Table) (out_parquet : string) (max_rows : Z)
    (columns shard_paths : list string) (Hmax : 0 < max_rows) :
  let tr := (build_subset fs out_parquet max_rows columns shard_paths).1 in
  rows_out tr <= max_rows /\
  (forall pre p post ev l shard,
      Py.sorted shard_paths = pre ++ p :: post ->
      for_loop fs out_parquet max_rows columns initial pre = (ev, l, Next) ->
      fs !! p = Some shard ->
      let rc := resolve_columns (available_of shard) columns in
      rc <> [] ->
      (forall t0, head (written_tables ev) = Some t0 -> write_accepts (names t0) rc = true) ->
      rows_out ev + Z.of_nat (length (rows shard)) > max_rows ->
      output_rows tr =
        output_rows ev ++ take (Z.to_nat (max_rows - rows_out ev)) (rows (Tbl.select shard rc)) /\
      rows_out tr = max_rows) /\
  output_rows
    (build_subset two_shards out_parquet 150 default_columns ["b.parquet"; "a.parquet"]).1 =
    numbered "a" 100 ++ take 50 (numbered "b" 100).
Proof.
  intros tr. split; [|split].
  - subst tr. unfold build_subset.
    destruct (for_loop _ _ _ _ _ _) as [[ev l] f] eqn:E.
    pose proof (loop_mirrors _ _ _ _ _ _ _ _ _ _ (mirrors_initial out_parquet) E) as (Hr & _).
    assert (0 <= max_rows) as Hm by lia.
    pose proof (loop_within _ _ _ _ _ _ _ _ _ Hm (within_initial _ Hm) E) as (_ & Hle & _).
    simpl in Hr. rewrite Hr in Hle.
    destruct f; simpl; try (by apply Hle).
    all: rewrite rows_out_app; unfold finish; destruct (writer l);
      unfold rows_out at 2; simpl; specialize (Hle Hmax); lia.
  - intros pre p post ev l shard Hs Hpre Hp rc Hrc Hacc Hover.
    assert (0 <= max_rows) as Hm by lia.
    pose proof (loop_mirrors _ _ _ _ _ _ _ _ _ _ (mirrors_initial out_parquet) Hpre)
      as (Hr & Hw & _).
    pose proof (loop_within _ _ _ _ _ _ _ _ _ Hm (within_initial _ Hm) Hpre) as (_ & _ & W).
    destruct (W eq_refl) as [W0 W1]. simpl in Hr, Hw.
    destruct (body_accepted fs out_parquet max_rows columns l p shard Hp Hrc)
      as (op & w & Hop & Hb).
    { intros w Hl. rewrite Hw in Hl.
      destruct (head (written_tables ev)) as [t0|] eqn:Ht; simplify_eq/=. by apply Hacc. }
    fold rc in Hb, Hop.
    rewrite capped_num_rows in Hb by (done || lia).
    unfold Tbl.num_rows in Hb. rewrite select_length in Hb.
    rewrite bool_decide_eq_true_2 in Hb by (rewrite Hr; lia).
    replace (rows_written l + (max_rows - rows_written l)) with max_rows in Hb by lia.
    unfold Py.truthy in Hb.
    replace (max_rows =? 0) with false in Hb by (symmetry; apply Z.eqb_neq; lia).
    replace (max_rows >=? max_rows) with true in Hb by (symmetry; apply Z.geb_le; lia).
    simpl in Hb.
    subst tr. unfold build_subset. rewrite Hs.
    rewrite (for_loop_reach_stop _ _ _ _ _ _ _ _ _ _ _ _ _ Hpre Hb) by done.
    simpl. unfold finish. simpl.
    assert (output_rows
              ((ev ++ EvReadSchema p :: EvReadTable p rc :: op ++
                 [EvWriteTable (capped max_rows (rows_written l) (Tbl.select shard rc));
                  EvPrint (MsgWrote max_rows)]) ++
               [EvCloseWriter; EvPrint (MsgFinal out_parquet max_rows)]) =
            output_rows ev ++
              take (Z.to_nat (max_rows - rows_out ev)) (rows (Tbl.select shard rc))) as Hout.
    { rewrite !output_rows_app.
      change (EvReadSchema p :: EvReadTable p rc :: op ++ ?x)
        with ([EvReadSchema p; EvReadTable p rc] ++ op ++ x).
      rewrite rows_out_body_written; [|done|by eapply open_writer_no_write].
      rewrite capped_rows. unfold Tbl.num_rows. rewrite select_length.
      rewrite bool_decide_eq_true_2 by (rewrite Hr; lia).
      unfold output_rows at 2. simpl. by rewrite app_nil_r, Hr. }
    split; [exact Hout|].
    unfold rows_out at 1. rewrite Hout, length_app, length_take, select_length.
    unfold rows_out in *. lia.
  - clear. destruct lib as [accepts Hsame]. vm_compute. rewrite !Hsame. reflexivity.
Qed.

Lemma build_subset_row_cap_witness :
  0 < 150 /\
  rows_out (build_subset (lib := strict_lib) two_shards "out/laion.parquet" 150
              default_columns ["b.parquet"; "a.parquet"]).1 <= 150 /\
  output_rows (build_subset (lib := strict_lib) two_shards "out/laion.parquet" 150
                 default_columns ["b.parquet"; "a.parquet"]).1 =
    numbered "a" 100 ++ take 50 (numbered "b" 100).
Proof.
  split; [lia|].
  pose proof (build_subset_row_cap (lib := strict_lib) two_shards "out/laion.parquet" 150
                default_columns ["b.parquet"; "a.parquet"] ltac:(lia)) as (H1 & _ & H3).
  split; [exact H1 | exact H3].
Defined.

(** ** Processing order *)

(** C2. The shards are processed in ascending lexicographic order of their
    paths, whatever the order of the argument: the paths read are an initial
    segment of the sorted list, the output consists of the rows of the shards
    read, shard after shard in that order, and a permutation of the paths
    gives the very same run.  For [["b.parquet"; "a.parquet"]] the rows
    taken from [a.parquet] come before the rows taken from [b.parquet]
    (all of both, when nothing stops the run). *)
Theorem build_subset_path_order `{lib : ParquetLib}
    (fs : gmap string Table) (out_parquet : string) (max_rows : Z)
    (columns shard_paths shard_paths' : list string)
    (Hperm : shard_paths' ≡ₚ shard_paths) :
  let tr := (build_subset fs out_parquet max_rows columns shard_paths).1 in
  Sorted String.le (Py.sorted shard_paths) /\
  Py.sorted shard_paths ≡ₚ shard_paths /\
  shards_read tr `prefix_of` Py.sorted shard_paths /\
  (exists chunks,
      output_rows tr = concat chunks /\
      Forall2 (fun chunk p => chunk `prefix_of` rows (projection fs columns p))
              chunks (shards_read tr)) /\
  build_subset fs out_parquet max_rows columns shard_paths' =
    build_subset fs out_parquet max_rows columns shard_paths /\
  let tr_ba :=
    (build_subset fs out_parquet max_rows columns ["b.parquet"; "a.parquet"]).1 in
  exists ra rb,
    output_rows tr_ba = ra ++ rb /\
    ra `prefix_of` rows (projection fs columns "a.parquet") /\
    rb `prefix_of` rows (projection fs columns "b.parquet") /\
    (max_rows = 0 ->
     resolved_at fs columns "a.parquet" <> [] ->
     resolved_at fs columns "b.parquet" <> [] ->
     write_accepts (resolved_at fs columns "a.parquet")
                   (resolved_at fs columns "b.parquet") = true ->
     ra = rows (projection fs columns "a.parquet") /\
     rb = rows (projection fs columns "b.parquet")).
Proof.
  intros tr.
  split; [apply sorted_Sorted|]. split; [apply sorted_Permutation|].
  destruct (build_subset_view fs out_parquet max_rows columns shard_paths)
    as (ev & l & f & E & _ & _ & Hw & Hr & _ & _).
  destruct (loop_chunks _ _ _ _ _ _ _ _ _ E) as (Hpre & chunks & Hout & Hch).
  fold tr in Hw, Hr.
  split; [by rewrite Hr|].
  split; [exists chunks; by rewrite Hr, (output_rows_view _ _ Hw)|].
  split; [unfold build_subset; by rewrite (sorted_perm_eq _ _ Hperm)|].
  clear tr ev l f E Hw Hr Hpre chunks Hout Hch.
  intros tr.
  destruct (build_subset_view fs out_parquet max_rows columns ["b.parquet"; "a.parquet"])
    as (ev & l & f & E & _ & _ & Hw & Hr & _ & _).
  fold tr in Hw, Hr.
  change (Py.sorted ["b.parquet"; "a.parquet"]) with ["a.parquet"; "b.parquet"] in E.
  destruct (loop_chunks _ _ _ _ _ _ _ _ _ E) as (Hpre & chunks & Hout & Hch).
  rewrite (output_rows_view _ _ Hw).
  assert (exists ra rb, output_rows ev = ra ++ rb /\
            ra `prefix_of` rows (projection fs columns "a.parquet") /\
            rb `prefix_of` rows (projection fs columns "b.parquet")) as (ra & rb & Hab & Ha & Hb).
  { destruct Hpre as [k Hk].
    destruct (shards_read ev) as [|x [|y rest]]; simplify_eq/=.
    - inversion Hch; subst. exists [], []. rewrite Hout.
      repeat split; try done; apply prefix_nil.
    - inversion Hch as [|c ? cs ? Hc Hcs]; subst. inversion Hcs; subst.
      exists c, []. rewrite Hout. simpl. repeat split; try done. apply prefix_nil.
    - destruct rest; [|done].
      inversion Hch as [|c ? cs ? Hc Hcs]; subst.
      inversion Hcs as [|c' ? cs' ? Hc' Hcs']; subst. inversion Hcs'; subst.
      exists c, c'. rewrite Hout. simpl. rewrite app_nil_r. done. }
  exists ra, rb. split; [done|]. split; [done|]. split; [done|].
  intros Hz Hra Hrb Hacc.
  destruct (loop_unbounded fs out_parquet max_rows columns
              ["a.parquet"; "b.parquet"] initial Hz) as (ev' & l' & E' & Hwt).
  { by repeat constructor. }
  { simpl. intros s [= <-]. constructor; [apply write_accepts_same|].
    by repeat constructor. }
  rewrite E in E'. simplify_eq.
  apply (prefix_app_full _ _ _ _ Ha Hb).
  rewrite <- Hab. unfold output_rows. rewrite Hwt. simpl. by rewrite app_nil_r.
Qed.

Lemma build_subset_path_order_witness :
  ["a.parquet"; "b.parquet"] ≡ₚ ["b.parquet"; "a.parquet"] /\
  build_subset (lib := strict_lib) two_shards "out/laion.parquet" 0 default_columns
      ["a.parquet"; "b.parquet"] =
    build_subset (lib := strict_lib) two_shards "out/laion.parquet" 0 default_columns
      ["b.parquet"; "a.parquet"].
Proof.
  assert (["a.parquet"; "b.parquet"] ≡ₚ ["b.parquet"; "a.parquet"]) as Hperm
    by apply perm_swap.
  split; [exact Hperm|].
  exact (proj1 (proj2 (proj2 (proj2 (proj2
    (build_subset_path_order (lib := strict_lib) two_shards "out/laion.parquet" 0
       default_columns ["b.parquet"; "a.parquet"] ["a.parquet"; "b.parquet"] Hperm)))))).
Defined.

(** ** Column resolution *)

(** C3. A requested name resolves to itself when the schema has it, else to
    its lowercase when the schema has that, else to [caption] when its
    uppercase is [TEXT] and the schema has [caption], else to nothing; the
    resolved list keeps the resolved names in the order of the request.  For
    the columns [url], [caption] and the request [URL], [TEXT] the resolved
    list is [url], [caption]. *)
Theorem column_resolution_precedence (available : gset string)
    (columns : list string) (c : string) :
  (forall r, resolve_col available c = r <-> resolves_to available c r) /\
  resolve_columns available columns = omap (resolve_col available) columns /\
  resolve_columns (list_to_set ["url"; "caption"]) ["URL"; "TEXT"] = ["url"; "caption"].
Proof.
  split; [|split; [apply resolve_columns_omap|by vm_compute]].
  intros r. unfold resolve_col. split.
  - intros <-. case_bool_decide as H1; [by constructor|].
    case_bool_decide as H2; [by constructor|].
    case_bool_decide as H3; case_bool_decide as H4; simpl;
      (by constructor) || (constructor; try done; intros []; done).
  - intros H. inversion H as [H1|H1 H2|H1 H2 H3 H4|H1 H2 H3]; subst.
    + by rewrite bool_decide_eq_true_2.
    + by rewrite bool_decide_eq_false_2, bool_decide_eq_true_2.
    + rewrite (bool_decide_eq_false_2 _ H1), (bool_decide_eq_false_2 _ H2).
      by rewrite !bool_decide_eq_true_2.
    + rewrite (bool_decide_eq_false_2 _ H1), (bool_decide_eq_false_2 _ H2).
      case_bool_decide as H4; case_bool_decide as H5; simpl; try done.
      destruct H3. done.
Qed.

(** ** The resolution failure *)

(** C4. The call raises the error of line 71 exactly when a shard that
    resolves none of the requested columns is reached: when the sorted paths
    before it each resolve a column, are taken by the writer and stay below
    a cap that is set.  The error carries the requested columns and the
    (sorted) column names of that shard, and the run stops there: the shards
    before it were read and written, its schema is the last thing read, and
    no later path is touched.  A shard that resolves some of the requested
    columns never raises it, and whatever else is raised comes from the
    library (an unreadable path, a table the writer refuses). *)
Theorem build_subset_resolution_failure `{lib : ParquetLib}
    (fs : gmap string Table) (out_parquet : string) (max_rows : Z)
    (columns shard_paths : list string) (Hmax : 0 <= max_rows) :
  let r := build_subset fs out_parquet max_rows columns shard_paths in
  (forall pre p post shard,
      Py.sorted shard_paths = pre ++ p :: post ->
      runs_through fs max_rows columns pre ->
      fs !! p = Some shard ->
      resolve_columns (available_of shard) columns = [] ->
      r.2 = Raised (ValueError columns p (Py.sorted (elements (available_of shard)))) /\
      shards_read r.1 = pre ++ [p] /\
      written_tables r.1 = projection fs columns <$> pre /\
      last r.1 = Some (EvReadSchema p) /\
      closed r.1 = false) /\
  (forall c p av,
      r.2 = Raised (ValueError c p av) ->
      exists pre post shard,
        Py.sorted shard_paths = pre ++ p :: post /\
        runs_through fs max_rows columns pre /\
        fs !! p = Some shard /\
        resolve_columns (available_of shard) columns = [] /\
        c = columns /\
        av = Py.sorted (elements (available_of shard)) /\
        (forall n, n ∈ av <-> n ∈ names shard)) /\
  (forall l p shard c q av,
      fs !! p = Some shard ->
      resolve_columns (available_of shard) columns <> [] ->
      (loop_body fs out_parquet max_rows columns l p).2 <> Raise (ValueError c q av)) /\
  (forall e,
      r.2 = Raised e ->
      match e with
      | ValueError _ p _ => is_Some (fs !! p) /\ resolved_at fs columns p = []
      | FileNotFoundError p => fs !! p = None /\ p ∈ shard_paths
      | SchemaMismatch s t => write_accepts s (names t) = false
      end).
Proof.
  intros r.
  destruct (build_subset_view fs out_parquet max_rows columns shard_paths)
    as (ev & l & f & E & M & Hb & _).
  fold r in Hb.
  split; [|split; [|split]].
  - intros pre p post shard Hs (Hres & Hacc & Hsum) Hp Hrc.
    destruct (loop_runs_through fs out_parquet max_rows columns pre initial)
      as (ev1 & l1 & Hpre & Hwt); [done|done| | |].
    { simpl. intros s Hh. destruct pre as [|q0 pre']; simplify_eq/=.
      by apply Hacc. }
    { intros Hz. simpl. by apply Hsum. }
    pose proof (loop_mirrors _ _ _ _ _ _ _ _ _ _ (mirrors_initial out_parquet) Hpre)
      as (_ & _ & _ & _ & Hc).
    assert (r = (ev1 ++ [EvReadSchema p],
                 Raised (ValueError columns p
                           (Py.sorted (elements (available_of shard)))))) as ->.
    { subst r. unfold build_subset. rewrite Hs.
      by rewrite (for_loop_reach_stop _ _ _ _ _ _ _ _ _ _ _ _ _ Hpre
                    (body_unresolved_eq _ _ _ _ l1 p shard Hp Hrc)). }
    simpl. split; [done|].
    rewrite shards_read_app, (loop_reads_next _ _ _ _ _ _ _ _ Hpre).
    rewrite written_tables_app, Hwt, last_snoc, closed_app. simpl in Hc.
    rewrite Hc. simpl. by rewrite app_nil_r.
  - intros c p av Hr. rewrite Hb in Hr.
    destruct f as [| |e]; simpl in Hr; try done. injection Hr as ->.
    destruct (for_loop_stop _ _ _ _ _ _ _ _ _ E) as
      (pre & q & post & ev1 & l1 & ev2 & Hs & Hpre & Hbody & ->); [done|].
    destruct (body_value_error _ _ _ _ _ _ _ _ _ _ _ Hbody)
      as (shard & Hp & Hrc & -> & -> & -> & _).
    destruct (loop_next_inv _ _ _ _ _ _ _ _ Hmax (within_initial _ Hmax) Hpre)
      as (Hres & Hacc & Hsum).
    exists pre, post, shard. split; [done|]. split.
    { split; [done|]. split.
      - intros q0 Hq0. apply Hacc. simpl.
        destruct pre as [|q1 pre']; by simplify_eq/=.
      - intros Hz. specialize (Hsum Hz). simpl in Hsum. lia. }
    repeat split; try done.
    + rewrite sorted_Permutation, elem_of_elements. unfold available_of.
      by rewrite elem_of_list_to_set.
    + rewrite sorted_Permutation, elem_of_elements. unfold available_of.
      by rewrite elem_of_list_to_set.
  - intros l0 p shard c q av Hp Hrc Hraise.
    destruct (loop_body _ _ _ _ _ _) as [[ev0 l'] f0] eqn:E0. simpl in Hraise. subst f0.
    destruct (body_value_error _ _ _ _ _ _ _ _ _ _ _ E0) as (s & Hp' & Hrc' & _).
    by simplify_eq.
  - intros e Hr. rewrite Hb in Hr.
    destruct f as [| |e']; simpl in Hr; try done. injection Hr as ->.
    destruct (for_loop_stop _ _ _ _ _ _ _ _ _ E) as
      (pre & q & post & ev1 & l1 & ev2 & Hs & Hpre & Hbody & ->); [done|].
    destruct (body_raise _ _ _ _ _ _ _ _ _ Hbody)
      as [(-> & Hq & _)|[(shard & Hq & Hrc & -> & _)|(w & t & _ & -> & Hacc & _)]].
    + split; [done|]. rewrite <- (sorted_Permutation shard_paths), Hs.
      apply elem_of_app. right. left.
    + split; [by eexists|done].
    + done.
Qed.

Lemma build_subset_resolution_failure_witness :
  0 <= 10 /\
  runs_through (lib := strict_lib) broken_tail 10 default_columns ["a.parquet"] /\
  (build_subset (lib := strict_lib) broken_tail "out/laion.parquet" 10 default_columns
     ["z.parquet"; "a.parquet"]).2 =
    Raised (ValueError ["URL"; "TEXT"] "z.parquet" ["bar"; "foo"]) /\
  shards_read
    (build_subset (lib := strict_lib) broken_tail "out/laion.parquet" 10 default_columns
       ["z.parquet"; "a.parquet"]).1 = ["a.parquet"; "z.parquet"].
Proof.
  assert (runs_through (lib := strict_lib) broken_tail 10 default_columns ["a.parquet"])
    as Hrun.
  { split; [repeat constructor; by vm_compute|]. split.
    - intros q0 [= <-]. repeat constructor.
    - intros _. by vm_compute. }
  split; [lia|]. split; [exact Hrun|].
  destruct (proj1 (build_subset_resolution_failure (lib := strict_lib) broken_tail
                     "out/laion.parquet" 10 default_columns ["z.parquet"; "a.parquet"]
                     ltac:(lia))
              ["a.parquet"] "z.parquet" [] (shard_of ["foo"; "bar"] "z" 3)
              ltac:(by vm_compute) Hrun ltac:(by vm_compute) ltac:(by vm_compute))
    as (Hraise & Hread & _).
  split; [|exact Hread].
  rewrite Hraise. by vm_compute.
Defined.

(** ** Closing the writer *)

(** C5. The writer is closed exactly when it was opened and the call
    returns: a call that raises never closes it.  For a good shard followed
    by a shard without any requested column, the call raises the resolution
    failure after the first shard was written, and the writer opened for it
    is left open. *)
Theorem build_subset_writer_closing `{lib : ParquetLib}
    (fs : gmap string Table) (out_parquet : string) (max_rows : Z)
    (columns shard_paths : list string) :
  let r := build_subset fs out_parquet max_rows columns shard_paths in
  closed r.1 = file_created r.1 && returned r.2 /\
  let r' := build_subset broken_tail out_parquet 0 default_columns
              ["z.parquet"; "a.parquet"] in
  r'.2 = Raised (ValueError default_columns "z.parquet" ["bar"; "foo"]) /\
  file_created r'.1 = true /\
  rows_out r'.1 = 3 /\
  closed r'.1 = false.
Proof.
  intros r. split.
  - destruct (build_subset_view fs out_parquet max_rows columns shard_paths)
      as (ev & l & f & _ & (_ & Hw & Ho & _ & Hc) & Hb & _).
    fold r in Hb. rewrite Hb.
    assert (closed (ev ++ finish out_parquet l) =
            file_created (ev ++ finish out_parquet l) && true) as Hfin.
    { rewrite closed_app, Hc. unfold file_created. rewrite opened_app, Ho.
      unfold finish. rewrite Hw.
      destruct (written_tables ev) as [|t ts]; simpl; [done|].
      unfold closed. apply bool_decide_eq_true. left. }
    destruct f; simpl; [exact Hfin|exact Hfin|].
    by rewrite Hc, andb_false_r.
  - clear. destruct lib as [accepts Hsame]. vm_compute. rewrite !Hsame. done.
Qed.

(** ** Creating the output file *)

(** C6, as the claim states it, fails on a single shard that has none of the
    requested columns: no shard is written, and yet the call raises and
    nothing is reported. *)
Lemma build_subset_nothing_written_raises :
  let r := build_subset (lib := strict_lib) lone_stranger "out/laion.parquet" 0
             default_columns ["x.parquet"] in
  ~ (written_tables r.1 = [] ->
     file_created r.1 = false /\ r.2 = Returned /\ MsgNoData ∈ printed r.1).
Proof.
  intros r H. destruct (H eq_refl) as (_ & Hret & _).
  vm_compute in Hret. discriminate Hret.
Qed.

(** C6, amended.  The output file and its parent directory are created once,
    with the first table that is written and on that table's schema, and not
    at all when no table is written.  When no table is written and the call
    returns, ``no data written'' is the only thing reported; that is the case
    exactly for an empty list of shard paths. *)
Theorem build_subset_output_creation `{lib : ParquetLib}
    (fs : gmap string Table) (out_parquet : string) (max_rows : Z)
    (columns shard_paths : list string) :
  let r := build_subset fs out_parquet max_rows columns shard_paths in
  opened r.1 = (fun t => (out_parquet, names t)) <$> take 1 (written_tables r.1) /\
  made_dirs r.1 = (fun _ => parent_dir out_parquet) <$> take 1 (written_tables r.1) /\
  (written_tables r.1 = [] ->
   file_created r.1 = false /\ made_dirs r.1 = [] /\
   (r.2 = Returned -> printed r.1 = [MsgNoData])) /\
  (written_tables r.1 = [] /\ r.2 = Returned <-> shard_paths = []) /\
  (shard_paths = [] -> r = ([EvPrint MsgNoData], Returned)).
Proof.
  intros r.
  destruct (build_subset_view fs out_parquet max_rows columns shard_paths)
    as (ev & l & f & E & (_ & Hw & Ho & Hd & _) & Hb & Hwt & _ & Hop & Hmd).
  fold r in Hb, Hwt, Hop, Hmd.
  destruct (loop_counts _ _ _ _ _ _ _ _ _ E) as (Hpr & Hnext & Hbreak & _).
  assert (shard_paths = [] -> r = ([EvPrint MsgNoData], Returned)) as Hempty.
  { intros ->. reflexivity. }
  assert (written_tables r.1 = [] -> r.2 = Returned ->
          printed r.1 = [MsgNoData] /\ shard_paths = []) as Hquiet.
  { rewrite Hwt. intros Hnil Hret. rewrite Hnil in Hw, Hpr. simpl in Hw.
    apply nil_length_inv in Hpr.
    rewrite Hb in Hret |- *. destruct f as [| |e]; simpl in *; try done.
    - rewrite printed_app, Hpr. unfold finish. rewrite Hw. split; [done|].
      specialize (Hnext eq_refl). rewrite Hnil in Hnext. simpl in Hnext.
      symmetry in Hnext. apply nil_length_inv in Hnext.
      apply Permutation_nil_r. by rewrite <- (sorted_Permutation shard_paths), Hnext.
    - by destruct Hbreak. }
  split; [by rewrite Hop, Hwt|]. split; [by rewrite Hmd, Hwt|].
  split; [|split; [|done]].
  - intros Hnil. unfold file_created. rewrite Hop, Hmd, Ho, Hd.
    rewrite Hwt in Hnil. rewrite Hnil. simpl. split; [done|]. split; [done|].
    intros Hret. apply Hquiet; [by rewrite Hwt|done].
  - split.
    + intros [Hnil Hret]. by apply Hquiet.
    + intros Hp. by rewrite (Hempty Hp).
Qed.

Lemma build_subset_output_creation_witness :
  build_subset (lib := strict_lib) two_shards "out/laion.parquet" 0 default_columns [] =
    ([EvPrint MsgNoData], Returned).
Proof.
  exact (proj2 (proj2 (proj2 (proj2
    (build_subset_output_creation (lib := strict_lib) two_shards "out/laion.parquet" 0
       default_columns [])))) eq_refl).
Defined.

(** ** No cap *)

(** C7. With [max_rows = 0], when every shard resolves at least one column
    (and the library takes every table), the call returns after reading
    every shard in sorted order and writing each of them in full: the output
    holds as many rows as all the shards together. *)
Theorem build_subset_unlimited `{lib : ParquetLib}
    (fs : gmap string Table) (out_parquet : string) (columns shard_paths : list string)
    (Hres : Forall (fun p => resolved_at fs columns p <> []) shard_paths)
    (Hacc : forall p0, head (Py.sorted shard_paths) = Some p0 ->
              Forall (fun p => write_accepts (resolved_at fs columns p0)
                                             (resolved_at fs columns p) = true)
                     shard_paths) :
  let r := build_subset fs out_parquet 0 columns shard_paths in
  r.2 = Returned /\
  shards_read r.1 = Py.sorted shard_paths /\
  written_tables r.1 = projection fs columns <$> Py.sorted shard_paths /\
  rows_out r.1 = Z.of_nat (sum_list_with (shard_rows fs) shard_paths).
Proof.
  intros r.
  destruct (loop_unbounded fs out_parquet 0 columns (Py.sorted shard_paths) initial eq_refl)
    as (ev & l & E & Hwt).
  { by rewrite sorted_Permutation. }
  { simpl. intros s Hs.
    destruct (Py.sorted shard_paths) as [|p0 rest] eqn:Hsorted; simplify_eq/=.
    rewrite <- Hsorted, sorted_Permutation. by apply Hacc. }
  destruct (build_subset_view fs out_parquet 0 columns shard_paths)
    as (ev' & l' & f & E' & _ & Hb & Hw & Hr & _).
  fold r in Hb, Hw, Hr. rewrite E in E'. simplify_eq.
  split; [by rewrite Hb|].
  split; [by rewrite Hr, (loop_reads_next _ _ _ _ _ _ _ _ E)|].
  split; [by rewrite Hw|].
  unfold rows_out, output_rows. rewrite Hw, Hwt, projection_rows_total.
  by rewrite sorted_Permutation.
Qed.

Lemma build_subset_unlimited_witness :
  Forall (fun p => resolved_at two_shards default_columns p <> [])
         ["b.parquet"; "a.parquet"] /\
  rows_out (build_subset (lib := strict_lib) two_shards "out/laion.parquet" 0
              default_columns ["b.parquet"; "a.parquet"]).1 = 200.
Proof.
  assert (Forall (fun p => resolved_at two_shards default_columns p <> [])
                 ["b.parquet"; "a.parquet"]) as Hres
    by (repeat constructor; by vm_compute).
  split; [exact Hres|].
  refine (proj2 (proj2 (proj2
    (build_subset_unlimited (lib := strict_lib) two_shards "out/laion.parquet"
       default_columns ["b.parquet"; "a.parquet"] Hres _)))).
  intros p0 Hp0. vm_compute in Hp0. injection Hp0 as <-.
  repeat constructor; by vm_compute.
Defined.

(** ** Stopping at the cap *)

(** C8. With a positive cap, once the rows written reach it the call has
    stopped at the shard that reached it: before that shard the count was
    below the cap, no later shard is read, the call returns, and the paths
    after that shard have no influence on the run, whatever is behind them.
    With [max_rows = 0], or when the cap is not reached, a call that returns
    has read every shard. *)
Theorem build_subset_stops_at_cap `{lib : ParquetLib}
    (fs : gmap string Table) (out_parquet : string) (max_rows : Z)
    (columns shard_paths : list string) (Hmax : 0 <= max_rows) :
  let r := build_subset fs out_parquet max_rows columns shard_paths in
  (0 < max_rows -> max_rows <= rows_out r.1 ->
   exists pre p post ev l,
     Py.sorted shard_paths = pre ++ p :: post /\
     for_loop fs out_parquet max_rows columns initial pre = (ev, l, Next) /\
     rows_out ev < max_rows /\
     shards_read r.1 = pre ++ [p] /\
     r.2 = Returned /\
     forall shard_paths' post',
       Py.sorted shard_paths' = pre ++ p :: post' ->
       build_subset fs out_parquet max_rows columns shard_paths' = r) /\
  (max_rows = 0 \/ rows_out r.1 < max_rows ->
   r.2 = Returned -> shards_read r.1 = Py.sorted shard_paths).
Proof.
  intros r.
  destruct (build_subset_view fs out_parquet max_rows columns shard_paths)
    as (ev & l & f & E & (Hrw & _) & Hb & Hw & Hr & _).
  fold r in Hb, Hw, Hr.
  assert (rows_out r.1 = rows_out ev) as Hrows
    by (unfold rows_out; by rewrite (output_rows_view _ _ Hw)).
  rewrite Hrows. simpl in Hrw. split.
  - intros Hpos Hreach.
    pose proof (loop_within _ _ _ _ _ _ _ _ _ Hmax (within_initial _ Hmax) E) as (_ & _ & Wn).
    destruct f as [| |e].
    { destruct (Wn eq_refl) as [_ W]. specialize (W Hpos). lia. }
    all: destruct (for_loop_stop _ _ _ _ _ _ _ _ _ E) as
        (pre & p & post & ev1 & l1 & ev2 & Hs & Hpre & Hbody & ->); [done|].
    all: pose proof (loop_within _ _ _ _ _ _ _ _ _ Hmax (within_initial _ Hmax) Hpre)
        as (_ & _ & W1); destruct (W1 eq_refl) as [_ W]; specialize (W Hpos).
    all: pose proof (loop_mirrors _ _ _ _ _ _ _ _ _ _ (mirrors_initial out_parquet) Hpre)
        as (Hrw1 & _); simpl in Hrw1.
    + exists pre, p, post, ev1, l1.
      split; [done|]. split; [done|]. split; [lia|].
      split; [|split; [by rewrite Hb|]].
      * rewrite Hr, shards_read_app, (loop_reads_next _ _ _ _ _ _ _ _ Hpre).
        by rewrite (body_flow_reads _ _ _ _ _ _ _ _ _ Hbody).
      * intros shard_paths' post' Hs'. rewrite Hb.
        unfold build_subset. rewrite Hs'.
        by rewrite (for_loop_reach_stop _ _ _ _ _ _ _ _ _ _ _ _ _ Hpre Hbody).
    + destruct (body_step _ _ _ _ _ _ _ _ _ Hbody)
        as [(_ & Hnw & _)|(t & _ & _ & _ & _ & _ & _ & [?|[? _]])]; try done.
      unfold rows_out, output_rows in Hreach.
      rewrite written_tables_app, Hnw, app_nil_r in Hreach.
      unfold rows_out, output_rows in Hrw1. lia.
  - intros Hcap Hret. rewrite Hb in Hret. rewrite Hr.
    destruct f as [| |e]; simpl in Hret; try done.
    + by apply (loop_reads_next _ _ _ _ _ _ _ _ E).
    + destruct (loop_counts _ _ _ _ _ _ _ _ _ E) as (_ & _ & _ & Hbr).
      destruct (Hbr eq_refl) as [Hz Hle]. lia.
Qed.

Lemma build_subset_stops_at_cap_witness :
  0 <= 3 /\
  shards_read (build_subset (lib := strict_lib) broken_tail "out/laion.parquet" 3
                 default_columns ["z.parquet"; "a.parquet"]).1 = ["a.parquet"] /\
  (build_subset (lib := strict_lib) broken_tail "out/laion.parquet" 3
     default_columns ["z.parquet"; "a.parquet"]).2 = Returned.
Proof.
  split; [lia|].
  destruct (proj1 (build_subset_stops_at_cap (lib := strict_lib) broken_tail
                     "out/laion.parquet" 3 default_columns ["z.parquet"; "a.parquet"]
                     ltac:(lia)) ltac:(lia) ltac:(by vm_compute))
    as (pre & p & post & ev & l & Hs & _ & _ & Hread & Hret & _).
  split; [|exact Hret].
  rewrite Hread. vm_compute in Hs.
  destruct pre as [|q pre]; simpl in Hs.
  - by injection Hs as <- <-.
  - exfalso. injection Hs as <- Hs. vm_compute in Hread.
    destruct pre; simpl in *; [|destruct pre]; discriminate Hread.
Defined.

(** ** The schema of the output *)

(** C9, as the claim states it, fails on two shards that resolve the request
    to different names: the writer, opened on the names of the first, does
    not take the table of the second, so the two are not both appended and
    the call does not return. *)
Lemma build_subset_drift_refused :
  let r := build_subset (lib := strict_lib) drifting "out/laion.parquet" 0
             default_columns ["a.parquet"; "b.parquet"] in
  resolved_at drifting default_columns "a.parquet" <>
    resolved_at drifting default_columns "b.parquet" /\
  ~ (length (written_tables r.1) = 2%nat /\ r.2 = Returned).
Proof.
  intros r. split; [by vm_compute|].
  intros [_ Hret]. vm_compute in Hret. discriminate Hret.
Qed.

(** C9, amended.  The writer is opened once, on the schema of the first table
    that is written.  Every later table is handed to the writer under the
    columns its own shard resolved the request to, and the program compares
    them with nothing: its only error of its own is the one for a shard that
    resolves no column.  The comparison is the writer's: every table in the
    output was taken by the writer against the schema of the first, and a
    table it refuses is not appended; the call raises the writer's error
    there, with the shards before it written.  With pyarrow's writer, which
    takes equal column names only, every table in the output has the names
    of the first, and of two shards that resolve the request to different
    names the second is refused. *)
Theorem build_subset_schema_drift `{lib : ParquetLib}
    (fs : gmap string Table) (out_parquet : string) (max_rows : Z)
    (columns shard_paths : list string) :
  let r := build_subset fs out_parquet max_rows columns shard_paths in
  let rs := build_subset (lib := strict_lib) fs out_parquet max_rows columns shard_paths in
  opened r.1 = (fun t => (out_parquet, names t)) <$> take 1 (written_tables r.1) /\
  Forall2 (fun t p => names t = resolved_at fs columns p /\
                      rows t `prefix_of` rows (projection fs columns p))
          (written_tables r.1)
          (take (length (written_tables r.1)) (shards_read r.1)) /\
  (forall c p av, r.2 = Raised (ValueError c p av) -> resolved_at fs columns p = []) /\
  (forall t0, head (written_tables r.1) = Some t0 ->
     Forall (fun t => write_accepts (names t0) (names t) = true) (written_tables r.1)) /\
  (forall s t,
      r.2 = Raised (SchemaMismatch s t) ->
      write_accepts s (names t) = false /\
      head (names <$> written_tables r.1) = Some s /\
      exists pre p post,
        Py.sorted shard_paths = pre ++ p :: post /\
        shards_read r.1 = pre ++ [p] /\
        length (written_tables r.1) = length pre /\
        names t = resolved_at fs columns p) /\
  (forall t0, head (written_tables rs.1) = Some t0 ->
     Forall (fun t => names t = names t0) (written_tables rs.1)) /\
  let drift := build_subset (lib := strict_lib) drifting out_parquet 0 default_columns
                 ["a.parquet"; "b.parquet"] in
  drift.2 = Raised (SchemaMismatch ["url"; "caption"]
                      (projection drifting default_columns "b.parquet")) /\
  opened drift.1 = [(out_parquet, ["url"; "caption"])] /\
  names <$> written_tables drift.1 = [["url"; "caption"]] /\
  rows_out drift.1 = 2.
Proof.
  intros r rs.
  destruct (build_subset_view fs out_parquet max_rows columns shard_paths)
    as (ev & l & f & E & (_ & _ & Ho & _) & Hb & Hw & Hr & Hop & _).
  fold r in Hb, Hw, Hr, Hop.
  split; [by rewrite Hop, Hw|].
  split; [rewrite Hw, Hr; by eapply loop_tables|].
  split; [|split; [|split; [|split; [|by vm_compute]]]].
  - intros c p av Hraise. rewrite Hb in Hraise.
    destruct f as [| |e]; simpl in Hraise; try done. simplify_eq.
    destruct (for_loop_stop _ _ _ _ _ _ _ _ _ E) as
      (pre & q & post & ev1 & l1 & ev2 & Hs & Hpre & Hbody & ->); [done|].
    destruct (body_value_error _ _ _ _ _ _ _ _ _ _ _ Hbody)
      as (s & Hp & Hrc & -> & _).
    unfold resolved_at. by rewrite Hp.
  - intros t0. apply written_tables_accepted.
  - intros s t Hraise. rewrite Hb in Hraise.
    destruct f as [| |e]; simpl in Hraise; try done. injection Hraise as ->.
    destruct (for_loop_stop _ _ _ _ _ _ _ _ _ E) as
      (pre & q & post & ev1 & l1 & ev2 & Hs & Hpre & Hbody & ->); [done|].
    destruct (body_raise _ _ _ _ _ _ _ _ _ Hbody)
      as [(? & _)|[(? & _ & _ & ? & _)|(w & t' & Hl1 & Heq & Hacc & Hn & _ & Hnw & Hrd)]];
      [done|done|].
    injection Heq as -> ->.
    pose proof (loop_mirrors _ _ _ _ _ _ _ _ _ _ (mirrors_initial out_parquet) Hpre)
      as (_ & Hw1 & _).
    simpl in Hw1. rewrite Hl1 in Hw1.
    destruct (loop_counts _ _ _ _ _ _ _ _ _ Hpre) as (_ & Hlen & _).
    rewrite Hw, Hr, written_tables_app, shards_read_app, Hnw, Hrd, app_nil_r.
    rewrite (loop_reads_next _ _ _ _ _ _ _ _ Hpre).
    split; [done|]. split.
    + destruct (written_tables ev1) as [|t1 ts]; simplify_eq/=. done.
    + exists pre, q, post. by rewrite (Hlen eq_refl).
  - intros t0 Ht0.
    pose proof (written_tables_accepted (lib := strict_lib) fs out_parquet max_rows
                  columns shard_paths t0 Ht0) as Hall.
    fold rs in Hall. eapply Forall_impl; [exact Hall|].
    intros t Ht. simpl in Ht. by apply bool_decide_eq_true in Ht.
Qed.

(** ** An empty request *)

(** C10. With an empty list of requested columns and a non-empty list of
    shards (all of them readable), the call raises the resolution failure at
    the first shard in path order, whatever its schema: nothing but that
    schema is read and no output file is created. *)
Theorem build_subset_empty_request `{lib : ParquetLib}
    (fs : gmap string Table) (out_parquet : string) (max_rows : Z)
    (shard_paths : list string)
    (Hne : shard_paths <> [])
    (Hfs : Forall (fun p => is_Some (fs !! p)) shard_paths) :
  let r := build_subset fs out_parquet max_rows [] shard_paths in
  exists p0 rest shard,
    Py.sorted shard_paths = p0 :: rest /\
    fs !! p0 = Some shard /\
    r = ([EvReadSchema p0],
         Raised (ValueError [] p0 (Py.sorted (elements (available_of shard))))) /\
    file_created r.1 = false.
Proof.
  intros r.
  destruct (Py.sorted shard_paths) as [|p0 rest] eqn:Hs.
  { destruct Hne. apply Permutation_nil_r.
    by rewrite <- (sorted_Permutation shard_paths), Hs. }
  assert (is_Some (fs !! p0)) as [shard Hp].
  { rewrite <- (sorted_Permutation shard_paths), Hs in Hfs.
    by apply Forall_cons in Hfs as [? _]. }
  assert (r = ([EvReadSchema p0],
               Raised (ValueError [] p0 (Py.sorted (elements (available_of shard)))))) as Hr.
  { subst r. unfold build_subset. rewrite Hs.
    rewrite (for_loop_cons_stop _ _ _ _ _ _ _ _ _ _
               (body_unresolved_eq fs out_parquet max_rows [] initial p0 shard Hp eq_refl));
      done. }
  exists p0, rest, shard. rewrite Hr. done.
Qed.

Lemma build_subset_empty_request_witness :
  ["b.parquet"; "a.parquet"] <> [] /\
  Forall (fun p => is_Some (two_shards !! p)) ["b.parquet"; "a.parquet"] /\
  build_subset (lib := strict_lib) two_shards "out/laion.parquet" 0 []
      ["b.parquet"; "a.parquet"] =
    ([EvReadSchema "a.parquet"],
     Raised (ValueError [] "a.parquet" ["TEXT"; "URL"])).
Proof.
  assert (["b.parquet"; "a.parquet"] <> @nil string) as Hne by discriminate.
  assert (Forall (fun p => is_Some (two_shards !! p)) ["b.parquet"; "a.parquet"]) as Hfs
    by (repeat constructor; by eexists).
  split; [exact Hne|]. split; [exact Hfs|].
  destruct (build_subset_empty_request (lib := strict_lib) two_shards "out/laion.parquet"
              0 ["b.parquet"; "a.parquet"] Hne Hfs)
    as (p0 & rest & shard & Hs & Hp & Hr & _).
  rewrite Hr. vm_compute in Hs. injection Hs as <- <-.
  vm_compute in Hp. injection Hp as <-. by vm_compute.
Defined.


(** * Further properties *)

(** ** More on column resolution *)

Lemma char_lower_idem (c : ascii) : Py.char_lower (Py.char_lower c) = Py.char_lower c.
Proof. destruct c as [[] [] [] [] [] [] [] []]; reflexivity. Qed.

Lemma lower_idem (s : string) : Py.lower (Py.lower s) = Py.lower s.
Proof. induction s as [|c s IH]; simpl; [done|]. by rewrite char_lower_idem, IH. Qed.

Lemma resolve_col_cases (av : gset string) (c n : string) :
  resolve_col av c = Some n ->
  n ∈ av /\ (n = c \/ n = Py.lower c \/ (n = "caption" /\ Py.upper c = "TEXT")).
Proof.
  unfold resolve_col. case_bool_decide as H1; [intros [= <-]; by auto|].
  case_bool_decide as H2; [intros [= <-]; by auto|].
  case_bool_decide as H3; case_bool_decide as H4; simpl; intros [= <-]; by auto.
Qed.

(** X1. Every resolved column is a column of the shard, so the projection
    read on line 73 never names a column the shard lacks; the resolved list
    is no longer than the request, and it is empty exactly when no requested
    name resolves. *)
Theorem resolved_columns_in_schema (fs : gmap string Table) (columns : list string)
    (p : string) (shard : Table) (Hp : fs !! p = Some shard) :
  Forall (fun n => n ∈ names shard) (resolved_at fs columns p) /\
  (length (resolved_at fs columns p) <= length columns)%nat /\
  (resolved_at fs columns p = [] <->
   Forall (fun c => resolve_col (available_of shard) c = None) columns).
Proof.
  unfold resolved_at. rewrite Hp. simpl. rewrite resolve_columns_omap.
  split; [|split].
  - apply Forall_forall. intros n Hn. apply list_elem_of_omap in Hn as (c & _ & Hc).
    apply resolve_col_cases in Hc as [Hav _].
    unfold available_of in Hav. by apply elem_of_list_to_set in Hav.
  - induction columns as [|c cs IH]; [done|].
    change (omap ?f (c :: cs))
      with (match f c with Some y => y :: omap f cs | None => omap f cs end).
    destruct (resolve_col _ c); simpl length; lia.
  - induction columns as [|c cs IH].
    + split; [constructor|done].
    + change (omap ?f (c :: cs))
        with (match f c with Some y => y :: omap f cs | None => omap f cs end).
      destruct (resolve_col _ c) eqn:Hc.
      * split; [done|]. intros H. apply Forall_cons in H as [H _]. congruence.
      * rewrite IH. split; [by constructor|]. intros H. by apply Forall_cons in H as [_ H].
Qed.

Lemma resolved_columns_in_schema_witness :
  Forall (fun n => n ∈ ["url"; "caption"])
         (resolved_at drifting default_columns "a.parquet").
Proof.
  exact (proj1 (resolved_columns_in_schema drifting default_columns "a.parquet"
                  (shard_of ["url"; "caption"] "a" 2) eq_refl)).
Defined.

(** X2. Resolution is case-sensitive but for the lowercase fallback: a name
    that resolves to something other than itself resolves to an
    all-lowercase column.  A column whose stored name has an uppercase
    letter is therefore found only by its exact spelling. *)
Theorem resolution_only_lowers (av : gset string) (c n : string)
    (Hres : resolve_col av c = Some n) (Hne : n <> c) :
  Py.lower n = n /\ n ∈ av /\ c ∉ av.
Proof.
  destruct (resolve_col_cases _ _ _ Hres) as [Hav [->|[->|[-> _]]]]; [done| |].
  - split; [apply lower_idem|]. split; [done|].
    intros Hc. unfold resolve_col in Hres.
    rewrite bool_decide_eq_true_2 in Hres by done. by simplify_eq.
  - split; [done|]. split; [done|].
    intros Hc. unfold resolve_col in Hres.
    rewrite bool_decide_eq_true_2 in Hres by done. by simplify_eq.
Qed.

Lemma resolution_only_lowers_witness :
  resolve_col (list_to_set ["url"; "caption"]) "URL" = Some "url" /\
  Py.lower "url" = "url".
Proof.
  assert (resolve_col (list_to_set ["url"; "caption"]) "URL" = Some "url") as Hres
    by (by vm_compute).
  split; [exact Hres|].
  refine (proj1 (resolution_only_lowers _ "URL" "url" Hres _)). discriminate.
Defined.

(** ** What is reported *)

Section report_facts.

Context `{lib : ParquetLib}.
Variable fs : gmap string Table.
Variable out_parquet : string.
Variable max_rows : Z.
Variable columns : list string.

Local Abbreviation body := (loop_body fs out_parquet max_rows columns).
Local Abbreviation loop := (for_loop fs out_parquet max_rows columns).

Lemma rows_out_single (ev : list Event) (t : Table) :
  written_tables ev = [t] -> rows_out ev = Tbl.num_rows t.
Proof.
  intros H. unfold rows_out, output_rows, Tbl.num_rows. rewrite H. simpl.
  by rewrite app_nil_r.
Qed.

Lemma loop_printed ev0 l paths ev l' f :
  mirrors out_parquet ev0 l -> loop l paths = (ev, l', f) ->
  printed ev = MsgWrote <$> running_totals (rows_written l) (written_tables ev).
Proof.
  revert ev0 l ev l' f. induction paths as [|p paths IH]; intros ev0 l ev l' f M E; simpl in E.
  - by injection E as <- <- <-.
  - destruct (body l p) as [[ev1 l1] f1] eqn:E1.
    pose proof (body_mirrors _ _ _ _ _ _ _ _ _ _ M E1) as M1.
    destruct (body_step _ _ _ _ _ _ _ _ _ E1)
      as [([e ->] & Hw & Hp)|(t & Hw & _ & Hp & _ & _ & _ & Hf)].
    + injection E as <- <- <-. by rewrite Hw, Hp.
    + assert (rows_written l1 = rows_written l + Tbl.num_rows t) as Hrw.
      { destruct M as (Hr & _), M1 as (Hr1 & _).
        by rewrite Hr1, rows_out_app, (rows_out_single _ _ Hw), Hr. }
      destruct Hf as [->|(-> & _)].
      * destruct (loop l1 paths) as [[ev2 l2] f2] eqn:E2. injection E as <- <- <-.
        rewrite printed_app, written_tables_app, Hw, Hp, (IH _ _ _ _ _ M1 E2).
        simpl. by rewrite Hrw.
      * injection E as <- <- <-. rewrite Hw, Hp. simpl. by rewrite Hrw.
Qed.

End report_facts.

(** X3. The progress lines show the running total of rows after each written
    table, in order.  A call that returns ends with one more line: the final
    summary, whose row count is exactly the number of rows in the output, or
    ``no data written'' when nothing was written.  A call that raises prints
    no such line. *)
Theorem build_subset_reports `{lib : ParquetLib}
    (fs : gmap string Table) (out_parquet : string) (max_rows : Z)
    (columns shard_paths : list string) :
  let r := build_subset fs out_parquet max_rows columns shard_paths in
  printed r.1 =
    (MsgWrote <$> running_totals 0 (written_tables r.1)) ++
    match r.2 with
    | Raised _ => []
    | Returned =>
        if bool_decide (written_tables r.1 = []) then [MsgNoData]
        else [MsgFinal out_parquet (rows_out r.1)]
    end.
Proof.
  intros r.
  destruct (build_subset_view fs out_parquet max_rows columns shard_paths)
    as (ev & l & f & E & (Hr & Hw & _) & Hb & Hwt & _).
  fold r in Hb, Hwt.
  pose proof (loop_printed _ _ _ _ _ _ _ _ _ _ (mirrors_initial out_parquet) E) as Hp.
  simpl in Hp.
  assert (rows_out r.1 = rows_out ev) as ->
    by (unfold rows_out; by rewrite (output_rows_view _ _ Hwt)).
  rewrite Hwt, Hb.
  destruct f as [| |e]; simpl; rewrite ?printed_app, ?app_nil_r, Hp; try done.
  all: f_equal; unfold finish; rewrite Hw;
    destruct (written_tables ev) as [|t ts]; simpl; [done|by rewrite Hr].
Qed.

(** ** The output under a cap, as a whole *)

Section cap_facts.

Context `{lib : ParquetLib}.
Variable fs : gmap string Table.
Variable out_parquet : string.
Variable max_rows : Z.
Variable columns : list string.

Local Abbreviation body := (loop_body fs out_parquet max_rows columns).
Local Abbreviation loop := (for_loop fs out_parquet max_rows columns).

Lemma open_writer_schema (ow : option ParquetWriter) table op w :
  open_writer out_parquet ow table = (op, w) ->
  w_schema w = from_option w_schema (names table) ow.
Proof. unfold open_writer. destruct ow; intros; by simplify_eq. Qed.

(** From a state below the cap, over shards that all resolve and are all
    taken by the writer, the loop appends the first [max_rows - rows_written]
    rows of the concatenated projections and does not raise. *)
Lemma loop_capped paths l :
  0 < max_rows -> 0 <= rows_written l < max_rows ->
  Forall (fun p => resolved_at fs columns p <> []) paths ->
  (forall s,
      from_option (fun w => Some (w_schema w))
                  (head (resolved_at fs columns <$> paths)) (writer l) = Some s ->
      Forall (fun p => write_accepts s (resolved_at fs columns p) = true) paths) ->
  exists ev l' f,
    loop l paths = (ev, l', f) /\ (forall e, f <> Raise e) /\
    output_rows ev =
      take (Z.to_nat (max_rows - rows_written l))
           (concat (rows <$> (projection fs columns <$> paths))).
Proof.
  intros Hpos. revert l. induction paths as [|p paths IH]; intros l Hrw Hres Hacc.
  - exists [], l, Next. repeat split; try done. simpl. by rewrite take_nil.
  - apply Forall_cons in Hres as [Hp Hres].
    unfold resolved_at in Hp. destruct (fs !! p) as [shard|] eqn:Hfs; [|done].
    simpl in Hp.
    destruct (body_accepted fs out_parquet max_rows columns l p shard Hfs Hp)
      as (op & w & Hop & Hb).
    { intros w Hw. rewrite Hw in Hacc. simpl in Hacc.
      specialize (Hacc _ eq_refl). apply Forall_cons in Hacc as [Ha _].
      unfold resolved_at in Ha. by rewrite Hfs in Ha. }
    set (sel := Tbl.select shard (resolve_columns (available_of shard) columns)) in *.
    assert (projection fs columns p = sel) as Hproj
      by (unfold projection; by rewrite Hfs).
    assert (Hws := open_writer_schema _ _ _ _ Hop). rewrite capped_names in Hws.
    match type of Hb with _ = (?e, _, _) => remember e as evs eqn:Hevs end.
    assert (output_rows evs = rows (capped max_rows (rows_written l) sel)) as Hout.
    { subst evs. apply rows_out_body_written; [done|].
      by eapply open_writer_no_write. }
    clear Hevs.
    rewrite fmap_cons, fmap_cons. cbn [concat]. rewrite Hproj.
    pose proof (capped_rows max_rows (rows_written l) sel) as Hrows.
    pose proof (capped_num_rows max_rows (rows_written l) sel
                  ltac:(lia) ltac:(lia) ltac:(lia)) as Hnum.
    cbn [for_loop]. rewrite Hb. unfold Py.truthy.
    replace (max_rows =? 0) with false by (symmetry; apply Z.eqb_neq; lia).
    cbn [negb andb]. rewrite Hnum. clear Hnum Hb. unfold Tbl.num_rows in *.
    case_bool_decide as Hover.
    + (* the shard passes the cap: it is cut and the loop breaks *)
      replace (rows_written l + (max_rows - rows_written l) >=? max_rows) with true
        by (symmetry; apply Z.geb_le; lia).
      eexists _, _, _. split; [done|]. split; [done|].
      rewrite Hout, Hrows, take_app_le; [done|]. lia.
    + destruct (rows_written l + Z.of_nat (length (rows sel)) >=? max_rows) eqn:Hge.
      * (* the shard fills the budget exactly *)
        apply Z.geb_le in Hge.
        eexists _, _, _. split; [done|]. split; [done|].
        rewrite Hout, Hrows, take_app_length'; [done|]. lia.
      * (* room is left: on to the next shard *)
        assert (rows_written l + Z.of_nat (length (rows sel)) < max_rows) as Hlt.
        { apply Z.lt_nge. intros H. apply Z.geb_le in H. congruence. }
        destruct (IH (mkLocals (Some w)
                        (rows_written l + Z.of_nat (length (rows sel)))))
          as (ev & l' & f & E & Hf & Hev); [cbn [rows_written]; lia|done| |].
        { simpl. intros s [= <-]. rewrite Hws.
          destruct (writer l) as [w0|] eqn:Hw0; simpl in *.
          - specialize (Hacc _ eq_refl). by apply Forall_cons in Hacc as [_ Ha].
          - unfold resolved_at in Hacc at 1. rewrite Hfs in Hacc. simpl in Hacc.
            specialize (Hacc _ eq_refl). by apply Forall_cons in Hacc as [_ Ha]. }
        rewrite E. eexists _, _, _. split; [done|]. split; [done|].
        rewrite output_rows_app, Hout, Hrows, Hev. simpl.
        replace (Z.to_nat (max_rows - rows_written l))
          with (length (rows sel) +
                Z.to_nat (max_rows - (rows_written l + Z.of_nat (length (rows sel)))))%nat
          by lia.
        by rewrite take_app_add'.
Qed.

End cap_facts.

(** X4. With a positive cap, when every shard resolves at least one column
    (and the library takes every table), the call returns and the output is
    exactly the first [max_rows] rows of the projections of all shards laid
    end to end in sorted path order. *)
Theorem build_subset_capped_output `{lib : ParquetLib}
    (fs : gmap string Table) (out_parquet : string) (max_rows : Z)
    (columns shard_paths : list string)
    (Hmax : 0 < max_rows)
    (Hres : Forall (fun p => resolved_at fs columns p <> []) shard_paths)
    (Hacc : forall p0, head (Py.sorted shard_paths) = Some p0 ->
              Forall (fun p => write_accepts (resolved_at fs columns p0)
                                             (resolved_at fs columns p) = true)
                     shard_paths) :
  let r := build_subset fs out_parquet max_rows columns shard_paths in
  r.2 = Returned /\
  output_rows r.1 =
    take (Z.to_nat max_rows)
         (concat (rows <$> (projection fs columns <$> Py.sorted shard_paths))).
Proof.
  intros r.
  destruct (loop_capped fs out_parquet max_rows columns (Py.sorted shard_paths) initial Hmax)
    as (ev & l & f & E & Hf & Hout).
  { simpl. lia. }
  { by rewrite sorted_Permutation. }
  { simpl. intros s Hs.
    destruct (Py.sorted shard_paths) as [|p0 rest] eqn:Hsorted; simplify_eq/=.
    rewrite <- Hsorted, sorted_Permutation. by apply Hacc. }
  destruct (build_subset_view fs out_parquet max_rows columns shard_paths)
    as (ev' & l' & f' & E' & _ & Hb & Hw & _).
  fold r in Hb, Hw. rewrite E in E'. injection E' as <- <- <-.
  rewrite (output_rows_view _ _ Hw), Hout, Hb. simpl. rewrite Z.sub_0_r.
  split; [|done]. destruct f as [| |e]; [done|done|by destruct (Hf e)].
Qed.

Lemma build_subset_capped_output_witness :
  0 < 150 /\
  output_rows (build_subset (lib := strict_lib) two_shards "out/laion.parquet" 150
                 default_columns ["b.parquet"; "a.parquet"]).1 =
    take 150 (numbered "a" 100 ++ numbered "b" 100).
Proof.
  split; [lia|].
  assert (Forall (fun p => resolved_at two_shards default_columns p <> [])
                 ["b.parquet"; "a.parquet"]) as Hres
    by (repeat constructor; by vm_compute).
  refine (eq_trans (proj2
    (build_subset_capped_output (lib := strict_lib) two_shards "out/laion.parquet" 150
       default_columns ["b.parquet"; "a.parquet"] ltac:(lia) Hres _)) _).
  - intros p0 Hp0. vm_compute in Hp0. injection Hp0 as <-.
    repeat constructor; by vm_compute.
  - by vm_compute.
Defined.

(** ** The comma-separated options *)

Section csv_facts.

Import Csv.

Lemma lstrip_starts_clean s : starts_clean (lstrip s).
Proof. induction s as [|c s IH]; simpl; [done|]. by destruct (is_space c) eqn:Hc. Qed.

Lemma lstrip_id s : starts_clean s -> lstrip s = s.
Proof. destruct s as [|c s]; simpl; [done|]. by intros ->. Qed.

Lemma rstrip_starts_clean s : starts_clean s -> starts_clean (rstrip s).
Proof. destruct s as [|c s]; simpl; [done|]. intros H. by rewrite H. Qed.

Lemma rstrip_idem s : rstrip (rstrip s) = rstrip s.
Proof.
  induction s as [|c s IH]; simpl; [done|].
  destruct (is_space c && bool_decide (rstrip s = EmptyString)) eqn:Hc; [done|].
  simpl. by rewrite IH, Hc.
Qed.

Lemma strip_idem s : strip (strip s) = strip s.
Proof.
  unfold strip. rewrite (lstrip_id (rstrip (lstrip s))).
  - apply rstrip_idem.
  - apply rstrip_starts_clean, lstrip_starts_clean.
Qed.

Lemma lstrip_contains c s : contains c (lstrip s) = true -> contains c s = true.
Proof.
  induction s as [|c' s IH]; simpl; [done|].
  destruct (is_space c'); [|done]. intros H. rewrite (IH H). apply orb_true_r.
Qed.

Lemma rstrip_contains c s : contains c (rstrip s) = true -> contains c s = true.
Proof.
  induction s as [|c' s IH]; simpl; [done|].
  destruct (is_space c' && _); simpl; [done|].
  intros [H|H]%orb_true_iff; [by rewrite H|]. rewrite (IH H). apply orb_true_r.
Qed.

Lemma strip_contains c s : contains c s = false -> contains c (strip s) = false.
Proof.
  intros H. destruct (contains c (strip s)) eqn:Hc; [|done].
  apply rstrip_contains, lstrip_contains in Hc. congruence.
Qed.

Lemma split_not_nil sep s : split sep s <> [].
Proof.
  destruct s as [|c s]; simpl; [done|].
  case_bool_decide; [done|]. by destruct (split sep s).
Qed.

Lemma split_no_sep sep s : Forall (fun x => contains sep x = false) (split sep s).
Proof.
  induction s as [|c s IH]; simpl; [by repeat constructor|].
  case_bool_decide as Hc; [by constructor|].
  destruct (split sep s) as [|piece pieces]; simpl.
  - repeat constructor. simpl. by rewrite bool_decide_eq_false_2.
  - apply Forall_cons in IH as [H1 H2]. constructor; [|done].
    simpl. by rewrite bool_decide_eq_false_2.
Qed.

Lemma split_whole sep x : contains sep x = false -> split sep x = [x].
Proof.
  induction x as [|c x IH]; simpl; [done|].
  intros [H1 H2]%orb_false_iff. rewrite H1, (IH H2). done.
Qed.

Lemma split_app_sep sep x rest :
  contains sep x = false ->
  split sep (x +:+ String sep rest) = x :: split sep rest.
Proof.
  induction x as [|c x IH]; simpl.
  - intros _. by rewrite bool_decide_eq_true_2.
  - intros [H1 H2]%orb_false_iff. rewrite H1, (IH H2). done.
Qed.

Lemma split_concat (l : list string) :
  l <> [] -> Forall (fun x => contains "," x = false) l ->
  split "," (String.concat "," l) = l.
Proof.
  induction l as [|x l IH]; [done|]. intros _ H.
  apply Forall_cons in H as [Hx Hl].
  destruct l as [|y l]; [by apply split_whole|].
  change (String.concat "," (x :: y :: l))
    with (x +:+ String "," (String.concat "," (y :: l))).
  rewrite split_app_sep by done. by rewrite IH.
Qed.

End csv_facts.

(** X5. Every entry that [main] reads out of a comma-separated option is
    non-empty, has no whitespace at either end and contains no comma: blank
    entries, as in ["a, ,b,"], are dropped. *)
Theorem parse_list_entries_clean (s : string) : Forall Csv.clean (Csv.parse_list s).
Proof.
  unfold Csv.parse_list, Csv.clean. apply Forall_fmap, Forall_forall.
  intros x [Hx Hin]%list_elem_of_filter. simpl.
  split; [done|]. split; [apply strip_idem|].
  apply strip_contains.
  pose proof (split_no_sep "," s) as H. rewrite Forall_forall in H. by apply H.
Qed.

(** X6. Reading is the inverse of writing: a list of clean entries, joined
    with commas, is read back as it is.  Reading therefore normalises:
    writing out what was read and reading again changes nothing. *)
Theorem parse_list_round_trip (l : list string) (s : string)
    (Hclean : Forall Csv.clean l) :
  Csv.parse_list (String.concat "," l) = l /\
  Csv.parse_list (String.concat "," (Csv.parse_list s)) = Csv.parse_list s.
Proof.
  assert (forall l, Forall Csv.clean l -> Csv.parse_list (String.concat "," l) = l) as Hrt.
  { clear. intros l Hclean. unfold Csv.parse_list.
    destruct l as [|x l]; [done|].
    rewrite split_concat; [|done|].
    - induction (x :: l) as [|y k IH]; [done|].
      apply Forall_cons in Hclean as [(Hne & Hs & _) Hk].
      rewrite filter_cons_True by (by rewrite Hs).
      rewrite fmap_cons, Hs. f_equal. by apply IH.
    - eapply Forall_impl; [exact Hclean|]. by intros y (_ & _ & Hy). }
  split; [by apply Hrt|]. apply Hrt, parse_list_entries_clean.
Qed.

Lemma parse_list_round_trip_witness :
  Forall Csv.clean ["URL"; "TEXT"] /\
  Csv.parse_list "URL,TEXT" = ["URL"; "TEXT"] /\
  Csv.parse_list " a.parquet, ,b.parquet," = ["a.parquet"; "b.parquet"].
Proof.
  assert (Forall Csv.clean ["URL"; "TEXT"]) as Hclean
    by (repeat constructor; by vm_compute).
  split; [exact Hclean|].
  destruct (parse_list_round_trip ["URL"; "TEXT"] " a.parquet, ,b.parquet," Hclean)
    as [H1 _].
  split; [exact H1|]. by vm_compute.
Defined.


Section blank_facts.

Import Csv.

Lemma rstrip_empty s : rstrip s = EmptyString <-> all_space s = true.
Proof.
  induction s as [|c s IH]; simpl; [done|].
  destruct (is_space c); simpl; [|done].
  case_bool_decide as H; [by rewrite <- IH|].
  split; [done|]. intros Hs. by apply IH in Hs.
Qed.

Lemma lstrip_all_space s : all_space (lstrip s) = all_space s.
Proof.
  induction s as [|c s IH]; simpl; [done|].
  destruct (is_space c) eqn:Hc; simpl; [done|]. by rewrite Hc.
Qed.

Lemma strip_empty s : strip s = EmptyString <-> all_space s = true.
Proof. unfold strip. by rewrite rstrip_empty, lstrip_all_space. Qed.

Lemma split_blank s :
  Forall (fun x => all_space x = true) (split "," s) <-> blank s = true.
Proof.
  induction s as [|c s IH]; simpl.
  - split; [done|]. by repeat constructor.
  - case_bool_decide as Hc.
    + rewrite Forall_cons, IH, orb_true_r. simpl. tauto.
    + rewrite orb_false_r. pose proof (split_not_nil "," s) as Hne.
      destruct (split "," s) as [|piece pieces]; [done|].
      rewrite Forall_cons in *. simpl.
      rewrite !andb_true_iff, <- IH. tauto.
Qed.

Lemma filter_strip_nil (l : list string) :
  filter (fun x => strip x <> EmptyString) l = [] <->
  Forall (fun x => all_space x = true) l.
Proof.
  induction l as [|x l IH]; [done|].
  rewrite Forall_cons, <- IH, <- strip_empty.
  destruct (decide (strip x = EmptyString)) as [Hx|Hx].
  - rewrite filter_cons_False by (intros H; by apply H). tauto.
  - rewrite filter_cons_True by done. split; [done|tauto].
Qed.

End blank_facts.

(** X7. An option is read as the empty list exactly when it holds nothing
    but commas and whitespace. *)
Theorem parse_list_empty_iff_blank (s : string) :
  Csv.parse_list s = [] <-> Csv.blank s = true.
Proof.
  unfold Csv.parse_list. rewrite <- split_blank, <- filter_strip_nil.
  split; [apply fmap_nil_inv|by intros ->].
Qed.

(** ** Downloading *)

Lemma string_app_assoc (a b c : string) : (a +:+ b) +:+ c = a +:+ b +:+ c.
Proof.
  induction a as [|x a IH]; [done|].
  change (String x ((a +:+ b) +:+ c) = String x (a +:+ b +:+ c)). by f_equal.
Qed.

Lemma compare_common_prefix (pre a b : string) :
  String.compare (pre +:+ a) (pre +:+ b) = String.compare a b.
Proof.
  induction pre as [|c pre IH]; [done|].
  change (String.compare (String c (pre +:+ a)) (String c (pre +:+ b)) = String.compare a b).
  simpl. unfold Ascii.compare. by rewrite N.compare_refl.
Qed.

Lemma sorted_common_prefix (pre : string) (l : list string) :
  Py.sorted (String.append pre <$> l) = String.append pre <$> Py.sorted l.
Proof.
  apply (Sorted_unique String.le).
  - apply sorted_Sorted.
  - apply (Sorted_fmap _ String.le String.le); [|apply sorted_Sorted].
    intros x y. unfold String.le, String.leb. by rewrite compare_common_prefix.
  - by rewrite !sorted_Permutation.
Qed.

Lemma join_relative (d f : string) :
  OsPath.starts_with_sep f = false -> OsPath.join d f = OsPath.dir_prefix d +:+ f.
Proof.
  intros H. unfold OsPath.join, OsPath.dir_prefix. rewrite H.
  destruct (_ || _); [done|]. by rewrite string_app_assoc.
Qed.

Section download_facts.

Context {World : Type} `{plat : Platform World}.
Variable repo_id : string.
Variable out_dir : string.
Variable token : option string.

Lemma fetch_one_cases w shard ev r :
  fetch_one repo_id out_dir token w shard = (ev, r) ->
  Forall (fun c => c.1 <> c.2) (copies ev) /\
  match r with
  | inl _ => fetched ev = [] \/ fetched ev = [shard]
  | inr (path, _) => path = OsPath.join out_dir shard /\ fetched ev = [shard]
  end.
Proof.
  unfold fetch_one.
  destruct (hf_hub_download repo_id shard token w) as [e|[src w1]];
    [intros [= <- <-]; split; [constructor|by left]|].
  destruct (bool_decide (src = OsPath.join out_dir shard)) eqn:Heq; simpl.
  - apply bool_decide_eq_true in Heq as ->. intros [= <- <-].
    split; [constructor|]. split; [by destruct (path_exists _ _)|done].
  - apply bool_decide_eq_false in Heq.
    destruct (path_exists w1 (OsPath.join out_dir shard)) eqn:Hex; simpl.
    + rewrite Hex. intros [= <- <-]. split; [constructor|done].
    + destruct (shutil_copy src (OsPath.join out_dir shard) w1) as [e|w2] eqn:Hcp.
      * intros [= <- <-]. split; [constructor|by right].
      * rewrite (copy_creates _ _ _ _ Hcp). intros [= <- <-].
        split; [by repeat constructor|done].
Qed.

Lemma fetch_loop_cases acc w shards ev r :
  fetch_loop repo_id out_dir token acc w shards = (ev, r) ->
  Forall (fun c => c.1 <> c.2) (copies ev) /\
  fetched ev `prefix_of` shards /\
  match r with
  | inl _ => True
  | inr (paths, _) =>
      paths = acc ++ (OsPath.join out_dir <$> shards) /\ fetched ev = shards
  end.
Proof.
  revert acc w ev r. induction shards as [|shard shards IH]; intros acc w ev r; simpl.
  - intros [= <- <-]. split; [constructor|]. split; [done|]. by rewrite app_nil_r.
  - destruct (fetch_one repo_id out_dir token w shard) as [ev1 [e|[path w1]]] eqn:E1.
    + intros [= <- <-]. destruct (fetch_one_cases _ _ _ _ E1) as [Hc [Hf|Hf]].
      * rewrite Hf. split; [done|]. split; [apply prefix_nil|done].
      * rewrite Hf. split; [done|]. split; [|done].
        apply (prefix_app_r [shard] [shard] shards). done.
    + destruct (fetch_loop _ _ _ _ _ _) as [ev2 r2] eqn:E2. intros [= <- <-].
      destruct (fetch_one_cases _ _ _ _ E1) as (Hc1 & -> & Hf1).
      destruct (IH _ _ _ _ E2) as (Hc2 & Hp2 & Hr2).
      unfold copies, fetched in *. rewrite !omap_app, Hf1.
      split; [by apply Forall_app|]. split; [by apply (prefix_cons shard)|].
      destruct r2 as [e|[paths w2]]; [done|].
      destruct Hr2 as [-> ->]. by rewrite <- app_assoc.
Qed.

Lemma download_shards_ok w shards ev paths w' :
  download_shards repo_id out_dir token w shards = (ev, inr (paths, w')) ->
  paths = OsPath.join out_dir <$> shards /\ fetched ev = shards.
Proof.
  unfold download_shards. destruct (os_makedirs out_dir w) as [e|w0]; [done|].
  destruct (fetch_loop _ _ _ _ _ _) as [ev1 r] eqn:E. intros [= <- ->].
  by destruct (fetch_loop_cases _ _ _ _ _ E) as (_ & _ & Hr).
Qed.

End download_facts.

Lemma sorted_join (out_dir : string) (shards : list string) :
  Forall (fun f => OsPath.starts_with_sep f = false) shards ->
  Py.sorted (OsPath.join out_dir <$> shards) = OsPath.join out_dir <$> Py.sorted shards.
Proof.
  intros Hrel.
  assert (forall l, Forall (fun f => OsPath.starts_with_sep f = false) l ->
            OsPath.join out_dir <$> l = String.append (OsPath.dir_prefix out_dir) <$> l) as Hj.
  { intros l Hl. apply list_fmap_ext. intros i f Hf.
    apply join_relative. rewrite Forall_forall in Hl. apply Hl.
    by eapply list_elem_of_lookup_2. }
  rewrite (Hj shards Hrel), sorted_common_prefix.
  symmetry. apply Hj. by rewrite sorted_Permutation.
Qed.

Lemma empty_request_raises `{lib : ParquetLib} (fs : gmap string Table)
    (out_parquet : string) (max_rows : Z) (shard_paths : list string) :
  shard_paths <> [] ->
  Forall (fun p => is_Some (fs !! p)) shard_paths ->
  exists p0 shard,
    head (Py.sorted shard_paths) = Some p0 /\ fs !! p0 = Some shard /\
    build_subset fs out_parquet max_rows [] shard_paths =
      ([EvReadSchema p0],
       Raised (ValueError [] p0 (Py.sorted (elements (available_of shard))))).
Proof.
  intros Hne Hfs. destruct (Py.sorted shard_paths) as [|p0 rest] eqn:Hs.
  { destruct Hne. apply Permutation_nil_r.
    by rewrite <- (sorted_Permutation shard_paths), Hs. }
  assert (is_Some (fs !! p0)) as [shard Hp].
  { rewrite <- (sorted_Permutation shard_paths), Hs in Hfs.
    by apply Forall_cons in Hfs as [? _]. }
  exists p0, shard. split; [done|]. split; [done|].
  unfold build_subset. rewrite Hs.
  by rewrite (for_loop_cons_stop _ _ _ _ _ _ _ _ _ _
                (body_unresolved_eq fs out_parquet max_rows [] initial p0 shard Hp eq_refl)).
Qed.

(** X8. [download_shards] asks the hub for the shards in the order given and
    stops at the first failure.  When it returns, the list it returns is,
    entry by entry, [os.path.join(out_dir, shard)]: wherever the hub put a
    file, the path handed on is the one inside [out_dir].  It never copies a
    file onto itself. *)
Theorem download_shards_paths {World : Type} `{plat : Platform World}
    (repo_id out_dir : string) (token : option string) (w : World)
    (shards : list string) :
  let r := download_shards repo_id out_dir token w shards in
  fetched r.1 `prefix_of` shards /\
  Forall (fun c => c.1 <> c.2) (copies r.1) /\
  forall paths w', r.2 = inr (paths, w') ->
    paths = OsPath.join out_dir <$> shards /\
    length paths = length shards /\
    fetched r.1 = shards.
Proof.
  intros r. subst r. unfold download_shards.
  destruct (os_makedirs out_dir w) as [e|w0]; simpl.
  { split; [apply prefix_nil|]. split; [constructor|done]. }
  destruct (fetch_loop _ _ _ _ _ _) as [ev r] eqn:E.
  destruct (fetch_loop_cases _ _ _ _ _ _ _ _ E) as (Hc & Hp & Hr). simpl.
  split; [done|]. split; [done|].
  intros paths w' ->. destruct Hr as [-> ->]. simpl.
  by rewrite length_fmap.
Qed.

Lemma download_shards_paths_witness :
  (download_shards "laion" "meta" None (∅ : gmap string Table)
     ["b.parquet"; "a.parquet"]).2 =
    inr (["meta/b.parquet"; "meta/a.parquet"], downloaded) /\
  fetched (download_shards "laion" "meta" None (∅ : gmap string Table)
             ["b.parquet"; "a.parquet"]).1 = ["b.parquet"; "a.parquet"].
Proof.
  assert ((download_shards "laion" "meta" None (∅ : gmap string Table)
             ["b.parquet"; "a.parquet"]).2 =
          inr (["meta/b.parquet"; "meta/a.parquet"], downloaded))
    as Hrun by (vm_compute; reflexivity).
  split; [exact Hrun|].
  exact (proj2 (proj2 (proj2 (proj2
    (download_shards_paths "laion" "meta" None (∅ : gmap string Table)
       ["b.parquet"; "a.parquet"])) _ _ Hrun))).
Defined.

(** The simulated hub and [makedirs] remove nothing. *)
Lemma sim_hub_keeps (repo_id f : string) (t : option string)
    (w w1 : gmap string Table) (src p : string) :
  hf_hub_download repo_id f t w = inr (src, w1) ->
  path_exists w p = true -> path_exists w1 p = true.
Proof.
  simpl. unfold sim_hub. destruct (hub_files !! f) as [tb|]; [|done].
  intros [= <- <-]. rewrite !bool_decide_eq_true. intros [x Hx].
  destruct (decide ("hub/" +:+ f = p)) as [->|Hne].
  - rewrite lookup_insert_eq. by eexists.
  - rewrite lookup_insert_ne by done. by eexists.
Qed.

(** X12. Files that are already in [out_dir] are left alone: when the
    destination of every shard exists beforehand (and the hub and
    [makedirs] remove nothing), [download_shards] copies no file at all and
    hands on the existing paths. *)
Theorem download_shards_keeps_existing {World : Type} `{plat : Platform World}
    (repo_id out_dir : string) (token : option string) (w : World)
    (shards : list string)
    (Hhub : forall f w0 src w1 p,
        hf_hub_download repo_id f token w0 = inr (src, w1) ->
        path_exists w0 p = true -> path_exists w1 p = true)
    (Hdir : forall w0 w1 p,
        os_makedirs out_dir w0 = inr w1 ->
        path_exists w0 p = true -> path_exists w1 p = true)
    (Hthere : Forall (fun f => path_exists w (OsPath.join out_dir f) = true) shards) :
  copies (download_shards repo_id out_dir token w shards).1 = [].
Proof.
  unfold download_shards. destruct (os_makedirs out_dir w) as [e|w0] eqn:Hmk; [done|].
  assert (Forall (fun f => path_exists w0 (OsPath.join out_dir f) = true) shards) as H0.
  { eapply Forall_impl; [exact Hthere|]. intros f Hf. by eapply Hdir. }
  clear Hthere Hmk. generalize (@nil string) as acc.
  revert w0 H0. induction shards as [|f shards IH]; intros w0 H0 acc; simpl; [done|].
  apply Forall_cons in H0 as [Hf Hrest].
  unfold fetch_one.
  destruct (hf_hub_download repo_id f token w0) as [e|[src w1]] eqn:Hh; [done|].
  pose proof (Hhub _ _ _ _ _ Hh Hf) as Hf1. rewrite Hf1, andb_false_r. simpl.
  rewrite Hf1.
  assert (Forall (fun f => path_exists w1 (OsPath.join out_dir f) = true) shards) as H1.
  { eapply Forall_impl; [exact Hrest|]. intros g Hg. by eapply Hhub. }
  specialize (IH w1 H1 (acc ++ [OsPath.join out_dir f])).
  destruct (fetch_loop _ _ _ _ _ _) as [ev r]. simpl in IH |- *. exact IH.
Qed.

Lemma download_shards_keeps_existing_witness :
  Forall (fun f => path_exists downloaded (OsPath.join "meta" f) = true)
         ["b.parquet"; "a.parquet"] /\
  copies (download_shards "laion" "meta" None downloaded ["b.parquet"; "a.parquet"]).1 = [].
Proof.
  assert (Forall (fun f => path_exists downloaded (OsPath.join "meta" f) = true)
                 ["b.parquet"; "a.parquet"]) as Hthere
    by (repeat constructor; vm_compute; reflexivity).
  split; [exact Hthere|].
  apply download_shards_keeps_existing; [|by intros w0 w1 p [= <-]|exact Hthere].
  intros f w0 src w1 p. apply sim_hub_keeps.
Defined.

Lemma all_readable_check (fs : gmap string Table) (paths : list string) :
  forallb (fun p => bool_decide (is_Some (fs !! p))) paths = true ->
  Forall (fun p => is_Some (fs !! p)) paths.
Proof.
  induction paths as [|p paths IH]; simpl; [constructor|].
  intros [Hp Hrest]%andb_true_iff. constructor; [|by apply IH].
  by apply bool_decide_eq_true in Hp.
Qed.

(** ** The whole program *)

(** X9. For shard names that are relative paths, sorting the local paths
    built by [download_shards] is the same as sorting the names: the order in
    which [build_subset] takes the shards is the lexicographic order of the
    shard names, whatever [out_dir] is. *)
Theorem local_paths_sort_by_name (out_dir : string) (shards : list string)
    (Hrel : Forall (fun f => OsPath.starts_with_sep f = false) shards) :
  Py.sorted (OsPath.join out_dir <$> shards) = OsPath.join out_dir <$> Py.sorted shards.
Proof. by apply sorted_join. Qed.

Lemma local_paths_sort_by_name_witness :
  Forall (fun f => OsPath.starts_with_sep f = false) ["b.parquet"; "a.parquet"] /\
  Py.sorted (OsPath.join "./laion_meta" <$> ["b.parquet"; "a.parquet"]) =
    ["./laion_meta/a.parquet"; "./laion_meta/b.parquet"].
Proof.
  assert (Forall (fun f => OsPath.starts_with_sep f = false) ["b.parquet"; "a.parquet"])
    as Hrel by (by repeat constructor).
  split; [exact Hrel|].
  exact (eq_trans (local_paths_sort_by_name "./laion_meta" _ Hrel) eq_refl).
Defined.

(** X10. When the download goes through, [main] has asked the hub for the
    shards in the order of the [--shards] option, and [build_subset] then
    reads them in the order of their names (for relative names): the shards
    it read are an initial segment of the sorted names, each under
    [out_dir]. *)
Theorem main_processing_order {World : Type} `{plat : Platform World} `{lib : ParquetLib}
    (args : Args) (env_token : option string) (w : World)
    (ev : list DlEvent) (tr : list Event) (o : Outcome)
    (Hrun : main args env_token w = (ev, inr (tr, o)))
    (Hrel : Forall (fun f => OsPath.starts_with_sep f = false)
                   (Csv.parse_list (a_shards args))) :
  fetched ev = Csv.parse_list (a_shards args) /\
  shards_read tr `prefix_of`
    (OsPath.join (a_out_dir args) <$> Py.sorted (Csv.parse_list (a_shards args))).
Proof.
  unfold main in Hrun.
  destruct (download_shards _ _ _ _ _) as [ev1 [e|[paths w']]] eqn:Hd; [done|].
  injection Hrun as <- Hb.
  destruct (download_shards_ok _ _ _ _ _ _ _ _ Hd) as [-> Hf].
  split; [done|].
  rewrite <- (sorted_join _ _ Hrel).
  destruct (build_subset_view (parquet_files w') (a_out_parquet args) (a_max_rows args)
              (Csv.parse_list (a_columns args))
              (OsPath.join (a_out_dir args) <$> Csv.parse_list (a_shards args)))
    as (ev2 & l & f & E & _ & _ & _ & Hr & _).
  rewrite Hb in Hr. simpl in Hr. rewrite Hr.
  by destruct (loop_chunks _ _ _ _ _ _ _ _ _ E) as [Hpre _].
Qed.

Lemma main_processing_order_witness :
  Forall (fun f => OsPath.starts_with_sep f = false)
         (Csv.parse_list "b.parquet, a.parquet") /\
  fetched
    (main (lib := strict_lib)
       (mkArgs "laion" "b.parquet, a.parquet" "meta" "out/laion.parquet" 0 "URL,TEXT" None)
       None (∅ : gmap string Table)).1 = Csv.parse_list "b.parquet, a.parquet".
Proof.
  assert (Forall (fun f => OsPath.starts_with_sep f = false)
                 (Csv.parse_list "b.parquet, a.parquet")) as Hrel
    by (vm_compute; by repeat constructor).
  split; [exact Hrel|].
  set (args := mkArgs "laion" "b.parquet, a.parquet" "meta" "out/laion.parquet" 0
                 "URL,TEXT" None).
  assert (main (lib := strict_lib) args None (∅ : gmap string Table) =
          ((main (lib := strict_lib) args None (∅ : gmap string Table)).1,
           inr ((build_subset (lib := strict_lib) downloaded "out/laion.parquet" 0
                   ["URL"; "TEXT"] ["meta/b.parquet"; "meta/a.parquet"]).1,
                (build_subset (lib := strict_lib) downloaded "out/laion.parquet" 0
                   ["URL"; "TEXT"] ["meta/b.parquet"; "meta/a.parquet"]).2))) as Hrun
    by (vm_compute; reflexivity).
  exact (proj1 (main_processing_order (lib := strict_lib) args None _ _ _ _ Hrun Hrel)).
Defined.

(** X11. A [--columns] option with no name in it (only commas and blanks)
    makes a run with at least one shard fail: once everything is downloaded,
    [build_subset] raises the resolution failure at the first shard in path
    order and writes nothing. *)
Theorem main_blank_columns {World : Type} `{plat : Platform World} `{lib : ParquetLib}
    (args : Args) (env_token : option string) (w w' : World)
    (ev : list DlEvent) (paths : list string)
    (Hblank : Csv.blank (a_columns args) = true)
    (Hdl : download_shards (a_repo_id args) (a_out_dir args)
             (token_of (a_hf_token args) env_token) w
             (Csv.parse_list (a_shards args)) = (ev, inr (paths, w')))
    (Hne : Csv.parse_list (a_shards args) <> [])
    (Hfs : Forall (fun p => is_Some (parquet_files w' !! p)) paths) :
  exists p0 shard,
    head (Py.sorted paths) = Some p0 /\
    parquet_files w' !! p0 = Some shard /\
    main args env_token w =
      (ev, inr ([EvReadSchema p0],
                Raised (ValueError [] p0 (Py.sorted (elements (available_of shard)))))).
Proof.
  assert (Csv.parse_list (a_columns args) = []) as Hcols.
  { unfold Csv.parse_list.
    rewrite (proj2 (filter_strip_nil _) (proj2 (split_blank _) Hblank)). done. }
  assert (paths <> []) as Hp.
  { destruct (download_shards_ok _ _ _ _ _ _ _ _ Hdl) as [-> _].
    intros H. by apply fmap_nil_inv in H. }
  destruct (empty_request_raises (parquet_files w') (a_out_parquet args)
              (a_max_rows args) paths Hp Hfs) as (p0 & shard & Hh & Hs & Hb).
  exists p0, shard. split; [done|]. split; [done|].
  unfold main. by rewrite Hdl, Hcols, Hb.
Qed.

Lemma main_blank_columns_witness :
  Csv.blank " , ," = true /\
  (main (lib := strict_lib)
     (mkArgs "laion" "b.parquet,a.parquet" "meta" "out/laion.parquet" 0 " , ," None)
     None (∅ : gmap string Table)).2 =
    inr ([EvReadSchema "meta/a.parquet"],
         Raised (ValueError [] "meta/a.parquet" ["TEXT"; "URL"])).
Proof.
  assert (Csv.blank " , ," = true) as Hblank by (by vm_compute).
  split; [exact Hblank|].
  set (args := mkArgs "laion" "b.parquet,a.parquet" "meta" "out/laion.parquet" 0
                 " , ," None).
  assert (download_shards "laion" "meta" None (∅ : gmap string Table)
            (Csv.parse_list "b.parquet,a.parquet") =
          ((download_shards "laion" "meta" None (∅ : gmap string Table)
              (Csv.parse_list "b.parquet,a.parquet")).1,
           inr (["meta/b.parquet"; "meta/a.parquet"], downloaded))) as Hdl
    by (vm_compute; reflexivity).
  destruct (main_blank_columns (lib := strict_lib) args None (∅ : gmap string Table)
              _ _ _ Hblank Hdl
              ltac:(by vm_compute)
              ltac:(apply all_readable_check; by vm_compute))
    as (p0 & shard & Hh & Hs & Hm).
  rewrite Hm. clear Hm Hdl. cbn [snd].
  vm_compute in Hh. injection Hh as <-.
  vm_compute in Hs. injection Hs as <-. by vm_compute.
Defined.
